(** * Gel-electrophoresis analysis core ([utils/gel_analysis.py])

    A shallow embedding of the lane segmenter, band detector, band
    quantifier, molecular-weight calibrator, lane normaliser and band
    comparator, with the properties of the design document checked
    against it.

    Conventions of the embedding.
    - Python floats are modelled by exact numbers: rationals [Q] for
      pixel intensities and positions, reals [R] where the code takes
      logarithms.  Rounding, [nan] and [inf] are outside the model.
    - A Python call that can raise returns a [result]: [Ok v] or
      [Raise e] with the exception class [e].
    - The band dictionaries that [normalize_lanes] writes into live in a
      [store] indexed by object identity ([loc]); lanes hold the
      identities of their bands. *)

From Stdlib Require Import ZArith QArith Qminmax Reals Qreals Lra Psatz Lia List String Sorted.
From stdpp Require Import base option list gmap.

Local Open Scope Z_scope.
#[local] Set Warnings "-clear-no-such-hyp".

(** ** Python values and control *)

Module Py.

(** The exception classes the analysed functions can raise. *)
Inductive exn : Set :=
| ValueError
| IndexError
| ZeroDivisionError
| UnboundLocalError.

Inductive result (A : Type) : Type :=
| Ok (a : A)
| Raise (e : exn).
Arguments Ok {A} a.
Arguments Raise {A} e.

#[export] Instance result_ret : MRet result := fun A a => Ok a.
#[export] Instance result_bind : MBind result := fun A B f m =>
  match m with
  | Ok a => f a
  | Raise e => Raise e
  end.

Definition is_ok {A} (r : result A) : bool :=
  match r with Ok _ => true | Raise _ => false end.

(** [l[i]] for a Python list: a negative index counts from the end,
    anything outside [-len, len) raises [IndexError]. *)
Definition index {A} (l : list A) (i : Z) : result A :=
  let n := Z.of_nat (length l) in
  let j := if i <? 0 then i + n else i in
  if (j <? 0) || (n <=? j) then Raise IndexError
  else match nth_error l (Z.to_nat j) with
       | Some a => Ok a
       | None => Raise IndexError
       end.

Definition in_range {A} (l : list A) (i : Z) : Prop :=
  - Z.of_nat (length l) <= i < Z.of_nat (length l).

(** [a // b] on Python ints: floor division, [ZeroDivisionError] on 0. *)
Definition floordiv (a b : Z) : result Z :=
  if b =? 0 then Raise ZeroDivisionError else Ok (a / b).

(** [a / b] on Python floats. *)
Definition truediv (a b : Q) : result Q :=
  if Qeq_bool b 0 then Raise ZeroDivisionError else Ok (a / b)%Q.

(** [range(n)]. *)
Definition range (n : Z) : list Z := map Z.of_nat (seq 0 (Z.to_nat n)).

(** [l[start:stop]]: a negative bound counts from the end, and both
    bounds are clamped to [0, len]. *)
Definition slice_bound (n i : Z) : Z :=
  if i <? 0 then Z.max 0 (i + n) else Z.min i n.

Definition slice {A} (l : list A) (start stop : Z) : list A :=
  let n := Z.of_nat (length l) in
  let a := slice_bound n start in
  let b := slice_bound n stop in
  firstn (Z.to_nat (b - a)) (skipn (Z.to_nat a) l).

(** [int(x)]: truncation toward zero. *)
Definition int (x : Q) : Z := Z.quot (Qnum x) (Zpos (Qden x)).

(** Truth value of an optional int argument ([None] and [0] are false). *)
Definition truthy (n : option Z) : bool :=
  match n with
  | None => false
  | Some k => negb (k =? 0)
  end.

End Py.
Import Py.

(** ** Images *)

(** A 2-D array of samples, row-major; [shape = (nrows, ncols)]. *)
Record ndarray2 : Type := {
  ncols : nat;
  rows : list (list Q)
}.

Definition nrows (a : ndarray2) : nat := length (rows a).

Definition wf_ndarray2 (a : ndarray2) : Prop :=
  Forall (fun r => length r = ncols a) (rows a).

Definition Qsum (l : list Q) : Q := fold_left Qplus l 0%Q.

(** [np.sum(image, axis=0)]: one sum per column. *)
Definition sum_axis0 (a : ndarray2) : list Q :=
  map (fun j => Qsum (map (fun r => nth j r 0%Q) (rows a))) (seq 0 (ncols a)).

(** [np.mean(image, axis=1)]: one mean per row (numpy gives [nan] for a
    row of no columns; the model gives 0 there). *)
Definition mean_axis1 (a : ndarray2) : list Q :=
  map (fun r => (Qsum r / inject_Z (Z.of_nat (ncols a)))%Q) (rows a).

(** ** Lane segmenter and band detector *)

Section Pipeline.

(** The numeric backend (scipy.signal and numpy), taken as given:
    - [sg_smooth x w p]: the values [savgol_filter] computes once its
      argument checks have passed;
    - [peak_search x d prom]: the peaks [find_peaks] selects once its
      argument checks have passed, each with its prominence;
    - [np_std]: the standard deviation of a profile. *)
Variable sg_smooth : list Q -> nat -> nat -> list Q.
Variable peak_search : list Q -> Z -> option Q -> list (nat * Q).
Variable np_std : list Q -> Q.

(** [scipy.signal.savgol_filter(x, window_length, polyorder)] with the
    default [mode='interp']: [polyorder] must be less than
    [window_length], and [window_length] must not exceed the size of
    [x]; both checks raise [ValueError]. *)
Definition savgol_filter (x : list Q) (window_length polyorder : nat)
  : result (list Q) :=
  if (window_length <=? polyorder)%nat then Raise ValueError
  else if (length x <? window_length)%nat then Raise ValueError
  else Ok (sg_smooth x window_length polyorder).

(** [scipy.signal.find_peaks(x, distance=d, prominence=prom)]:
    [distance] must be at least 1, else [ValueError]. *)
Definition find_peaks (x : list Q) (distance : Z) (prominence : option Q)
  : result (list (nat * Q)) :=
  if distance <? 1 then Raise ValueError
  else Ok (peak_search x distance prominence).

(** Consecutive pairs of a boundary list:
    [(boundaries[i], boundaries[i+1]) for i in range(len(boundaries)-1)]. *)
Fixpoint consecutive (boundaries : list Z) : list (Z * Z) :=
  match boundaries with
  | b0 :: ((b1 :: _) as rest) => (b0, b1) :: consecutive rest
  | _ => []
  end.

Definition equal_lanes (lane_width num_lanes : Z) : list (Z * Z) :=
  map (fun i => (i * lane_width, (i + 1) * lane_width)) (range num_lanes).

Definition detect_lanes (image : ndarray2) (num_lanes : option Z)
    (method : string) : result (list (Z * Z)) :=
  let width := Z.of_nat (ncols image) in
  if String.eqb method "projection" then
    let vertical_profile := sum_axis0 image in
    smoothed ← savgol_filter vertical_profile 51 3;
    distance ← (if truthy num_lanes
                then floordiv width (default 0 num_lanes + 1)
                else Ok 50);
    found ← find_peaks (map Qopp smoothed) distance None;
    let peaks := map (fun p => Z.of_nat (fst p)) found in
    if (0 <? length peaks)%nat then
      Ok (consecutive ([0] ++ peaks ++ [width]))
    else if truthy num_lanes then
      lane_width ← floordiv width (default 0 num_lanes);
      Ok (equal_lanes lane_width (default 0 num_lanes))
    else Ok [(0, width)]
  else Raise UnboundLocalError.

(** A band as [detect_bands] builds it. *)
Record detected_band : Type := {
  db_position : Z;
  db_intensity : Q;
  db_prominence : Q;
  db_width : Q
}.

Fixpoint bands_of_peaks (smoothed : list Q) (found : list (nat * Q))
  : result (list detected_band) :=
  match found with
  | [] => Ok []
  | (peak, prom) :: rest =>
      v ← index smoothed (Z.of_nat peak);
      bs ← bands_of_peaks smoothed rest;
      Ok ({| db_position := Z.of_nat peak;
             db_intensity := v;
             db_prominence := prom;
             db_width := 0%Q |} :: bs)
  end.

(** The [threshold_method] argument of the source is never read. *)
Definition detect_bands (lane_image : ndarray2) (min_distance : Z)
  : result (list detected_band) :=
  let horizontal_profile := mean_axis1 lane_image in
  smoothed ← savgol_filter horizontal_profile 11 2;
  found ← find_peaks smoothed min_distance
            (Some (np_std smoothed * (1 # 2))%Q);
  bands_of_peaks smoothed found.

End Pipeline.

(** ** Band quantifier *)

Record metrics : Type := {
  m_position : Z;
  m_mean_intensity : Q;
  m_max_intensity : Q;
  m_total_intensity : Q;
  m_area : Z;
  m_volume : Q;
  m_width : Q
}.

(** [np.max] of a non-empty sequence. *)
Definition Qmax_list (x : Q) (xs : list Q) : Q := fold_left Qmax xs x.

Definition quantify_band (lane_image : ndarray2) (band_position : Z)
    (band_width : option Q) : result metrics :=
  let height := Z.of_nat (nrows lane_image) in
  let band_width := default (20 # 1)%Q band_width in
  let y_start := Z.max 0 (int (inject_Z band_position - band_width / (2 # 1))%Q) in
  let y_end := Z.min height (int (inject_Z band_position + band_width / (2 # 1))%Q) in
  let band_region := slice (rows lane_image) y_start y_end in
  let size := Z.of_nat (length band_region) * Z.of_nat (ncols lane_image) in
  match concat band_region with
  | [] => Raise ValueError   (* np.max of a zero-size array *)
  | x :: xs =>
      Ok {| m_position := band_position;
            m_mean_intensity := (Qsum (x :: xs) / inject_Z size)%Q;
            m_max_intensity := Qmax_list x xs;
            m_total_intensity := Qsum (x :: xs);
            m_area := size;
            m_volume := Qsum (x :: xs);
            m_width := band_width |}
  end.

(** ** Molecular-weight calibrator *)

Definition log10 (x : R) : R := (ln x / ln 10)%R.
Definition pow10 (x : R) : R := Rpower 10 x.

(** [np.interp(x, xp, fp)] for increasing [xp]: [fp[0]] left of the
    first sample point, [fp[-1]] from the last one on, the sample value
    at a sample point and the chord between neighbours elsewhere.
    [interp_from] scans for the first sample point beyond [x], keeping
    the previous point [(x0, y0)]. *)
Fixpoint interp_from (x : Q) (x0 : Q) (y0 : R) (pts : list (Q * R)) : R :=
  match pts with
  | [] => y0
  | (x1, y1) :: rest =>
      if Qle_bool x1 x then interp_from x x1 y1 rest
      else if Qeq_bool x0 x then y0
      else ((y1 - y0) / (Q2R x1 - Q2R x0) * (Q2R x - Q2R x0) + y0)%R
  end.

Definition interp (x : Q) (xp : list Q) (fp : list R) : result R :=
  if negb (length xp =? length fp)%nat then Raise ValueError
  else match combine xp fp with
       | [] => Raise ValueError
       | (x0, y0) :: rest =>
           if Qle_bool x0 x then Ok (interp_from x x0 y0 rest) else Ok y0
       end.

Definition calculate_molecular_weight (band_position : Q)
    (marker_positions marker_weights : list Q) : result R :=
  let log_weights := map (fun w => log10 (Q2R w)) marker_weights in
  estimated_log_weight ← interp band_position marker_positions log_weights;
  Ok (pow10 estimated_log_weight).

(** ** Gel results *)

(** Identity of a band dictionary. *)
Definition loc : Set := nat.

(** A quantified band: the keys [detect_bands] and [quantify_band] set,
    and [normalized_intensity], present only once it has been written. *)
Record band : Type := {
  position : Z;
  intensity : Q;
  prominence : Q;
  width : Q;
  mean_intensity : Q;
  max_intensity : Q;
  total_intensity : Q;
  area : Z;
  volume : Q;
  normalized_intensity : option Q
}.

#[global] Instance band_inhabited : Inhabited band :=
  populate {| position := 0; intensity := 0; prominence := 0; width := 0;
              mean_intensity := 0; max_intensity := 0; total_intensity := 0;
              area := 0; volume := 0; normalized_intensity := None |}.

Record lane : Type := {
  lane_number : Z;
  bounds : Z * Z;
  num_bands : Z;
  bands : list loc
}.

Record gel : Type := {
  num_lanes : Z;
  lanes : list lane
}.

Abbreviation store := (gmap loc band).

(** Every band identity reachable from a gel result, lane by lane. *)
Definition band_locs (g : gel) : list loc := concat (map bands (lanes g)).

(** ** Pipeline orchestrator *)

Section Orchestrator.

Variable sg_smooth : list Q -> nat -> nat -> list Q.
Variable peak_search : list Q -> Z -> option Q -> list (nat * Q).
Variable np_std : list Q -> Q.

(** [image[:, x_start:x_end]] *)
Definition extract_lane (image : ndarray2) (lane_bounds : Z * Z) : ndarray2 :=
  let '(x_start, x_end) := lane_bounds in
  {| ncols := length (slice (seq 0 (ncols image)) x_start x_end);
     rows := map (fun r => slice r x_start x_end) (rows image) |}.

(** [band.update(metrics)]: the metrics keys are added to the detected
    band, and replace its [position] and [width]. *)
Definition update_band (b : detected_band) (m : metrics) : band :=
  {| position := m_position m; intensity := db_intensity b;
     prominence := db_prominence b; width := m_width m;
     mean_intensity := m_mean_intensity m; max_intensity := m_max_intensity m;
     total_intensity := m_total_intensity m; area := m_area m;
     volume := m_volume m; normalized_intensity := None |}.

(** A new dictionary object: it gets an identity not in use. *)
Definition alloc (s : store) (b : band) : loc * store :=
  let l := fresh (dom s) in (l, <[l := b]> s).

(** The loop [for band in bands] of one lane.  Each band dictionary that
    [detect_bands] created is a new object; it enters the store here,
    where the code first keeps a reference to it. *)
Fixpoint quantify_bands (lane_img : ndarray2) (found : list detected_band)
    (s : store) : result (list loc * store) :=
  match found with
  | [] => Ok ([], s)
  | b :: rest =>
      m ← quantify_band lane_img (db_position b) None;
      let '(l, s1) := alloc s (update_band b m) in
      '(ls, s2) ← quantify_bands lane_img rest s1;
      Ok (l :: ls, s2)
  end.

(** The loop [for i, bounds in enumerate(lane_bounds)], started at [i]. *)
Fixpoint analyze_lanes (image : ndarray2) (lane_bounds : list (Z * Z))
    (i : Z) (s : store) : result (list lane * store) :=
  match lane_bounds with
  | [] => Ok ([], s)
  | bnds :: rest =>
      let lane_img := extract_lane image bnds in
      found ← detect_bands sg_smooth peak_search np_std lane_img 20;
      '(quantified_bands, s1) ← quantify_bands lane_img found s;
      '(ls, s2) ← analyze_lanes image rest (i + 1) s1;
      Ok ({| lane_number := i + 1;
             bounds := bnds;
             num_bands := Z.of_nat (length quantified_bands);
             bands := quantified_bands |} :: ls, s2)
  end.

Definition analyze_gel (image : ndarray2) (num_lanes : option Z)
    (lane_bounds : option (list (Z * Z))) (s : store) : result (gel * store) :=
  lane_bounds ← match lane_bounds with
                | Some lb => Ok lb
                | None => detect_lanes sg_smooth peak_search image num_lanes
                            "projection"
                end;
  '(ls, s') ← analyze_lanes image lane_bounds 0 s;
  Ok (Build_gel (Z.of_nat (length lane_bounds)) ls, s').

End Orchestrator.

(** ** Lane normaliser *)

(** [band['normalized_intensity'] = v] *)
Definition set_normalized (b : band) (v : Q) : band :=
  {| position := position b; intensity := intensity b;
     prominence := prominence b; width := width b;
     mean_intensity := mean_intensity b; max_intensity := max_intensity b;
     total_intensity := total_intensity b; area := area b;
     volume := volume b; normalized_intensity := Some v |}.

(** [sum(band['total_intensity'] for band in lane['bands'])] *)
Definition lane_total (s : store) (ln : lane) : Q :=
  fold_left (fun acc l => (acc + total_intensity (s !!! l))%Q) (bands ln) 0%Q.

(** [np.mean] of a list ([nan] on the empty list in numpy, 0 here; the
    caller then has no lane to apply it to). *)
Definition np_mean (l : list Q) : Q :=
  (Qsum l / inject_Z (Z.of_nat (length l)))%Q.

Definition write_normalized (factor : Q) (s : store) (l : loc) : store :=
  <[l := set_normalized (s !!! l) (total_intensity (s !!! l) * factor)%Q]> s.

(** The loop [for i, lane in enumerate(gel_results['lanes'])], started
    at lane number [i]. *)
Fixpoint normalize_each (ls : list lane) (i : Z) (lane_totals : list Q)
    (norm_factor : Q) (s : store) : result store :=
  match ls with
  | [] => Ok s
  | ln :: rest =>
      t ← index lane_totals i;
      let factor := if Qle_bool t 0 then 1%Q else (norm_factor / t)%Q in
      normalize_each rest (i + 1) lane_totals norm_factor
        (fold_left (write_normalized factor) (bands ln) s)
  end.

(** Returns the gel result it was given (the same object) and the store
    after its writes. *)
Definition normalize_lanes (gel_results : gel) (reference_lane : option Z)
    (method : string) (s : store) : result (gel * store) :=
  if String.eqb method "total_intensity" then
    let lane_totals := map (lane_total s) (lanes gel_results) in
    norm_factor ← match reference_lane with
                  | Some r => index lane_totals r
                  | None => Ok (np_mean lane_totals)
                  end;
    s' ← normalize_each (lanes gel_results) 0 lane_totals norm_factor s;
    Ok (gel_results, s')
  else Ok (gel_results, s).

(** ** Band comparator *)

Record comparison : Type := {
  lane1_intensity : Q;
  lane2_intensity : Q;
  ratio : Q;
  fold_change : Q;
  percent_difference : Q
}.

(** What [compare_bands] returns: the metrics dictionary, or
    [{'error': str(e)}] for the exception [e] it caught. *)
Inductive compare_output : Type :=
| Compared (c : comparison)
| ErrorDict (e : exn).

Definition compare_body (gel_results : gel) (lane1 lane2 band_index : Z)
    (s : store) : result comparison :=
  ln1 ← index (lanes gel_results) lane1;
  l1 ← index (bands ln1) band_index;
  ln2 ← index (lanes gel_results) lane2;
  l2 ← index (bands ln2) band_index;
  let band1 := s !!! l1 in
  let band2 := s !!! l2 in
  ratio ← truediv (total_intensity band1) (total_intensity band2);
  fold_change ← (if Qle_bool 1 ratio then Ok ratio
                 else truediv (- (1)) ratio);
  pd ← truediv (total_intensity band1 - total_intensity band2)
               (total_intensity band2);
  Ok {| lane1_intensity := total_intensity band1;
        lane2_intensity := total_intensity band2;
        ratio := ratio;
        fold_change := fold_change;
        percent_difference := (pd * (100 # 1))%Q |}.

(** [try: ... except (IndexError, ZeroDivisionError) as e: ...]; any
    other exception propagates. *)
Definition compare_bands (gel_results : gel) (lane1 lane2 band_index : Z)
    (s : store) : result compare_output :=
  match compare_body gel_results lane1 lane2 band_index s with
  | Ok c => Ok (Compared c)
  | Raise IndexError => Ok (ErrorDict IndexError)
  | Raise ZeroDivisionError => Ok (ErrorDict ZeroDivisionError)
  | Raise e => Raise e
  end.

(** ** Concrete inputs used in the closed examples *)

(** The backend on an all-zero profile: a Savitzky–Golay filter is
    linear, so it returns the zero profile itself, and a constant
    profile has no peak. *)
Definition flat_smooth (x : list Q) (_ _ : nat) : list Q := x.
Definition no_peaks (_ : list Q) (_ : Z) (_ : option Q) : list (nat * Q) := [].
Definition flat_std (_ : list Q) : Q := 0%Q.

(** An all-zero image of one row and [w] columns, and an all-zero lane
    of [h] rows and one column. *)
Definition zero_image (w : nat) : ndarray2 :=
  {| ncols := w; rows := [repeat 0%Q w] |}.
Definition zero_lane (h : nat) : ndarray2 :=
  {| ncols := 1; rows := repeat [0%Q] h |}.

Definition sample_band (t : Q) : band :=
  {| position := 3; intensity := 1; prominence := 1; width := 20 # 1;
     mean_intensity := 1; max_intensity := 1; total_intensity := t;
     area := 20; volume := t; normalized_intensity := None |}.

Definition sample_lane (n : Z) (bs : list loc) : lane :=
  {| lane_number := n; bounds := (0, 10); num_bands := Z.of_nat (length bs);
     bands := bs |}.

(** A lane of three rows and two columns. *)
Definition small_lane : ndarray2 :=
  {| ncols := 2; rows := [[1; 2]; [3; 4]; [5; 6]]%Q |}.

(** Two lanes of one band each, with total intensities 5 and 0. *)
Definition sample_gel : gel :=
  {| num_lanes := 2; lanes := [sample_lane 1 [0%nat]; sample_lane 2 [1%nat]] |}.
Definition sample_store : store :=
  <[0%nat := sample_band (5 # 1)]> (<[1%nat := sample_band 0]> ∅).

(** Two lanes that share band object 0: the first lane holds it alone,
    the second holds it next to band 1.  [analyze_gel] never builds such
    a result; it shows what [distinct_bands] rules out. *)
Definition shared_gel : gel :=
  {| num_lanes := 2;
     lanes := [sample_lane 1 [0%nat]; sample_lane 2 [0%nat; 1%nat]] |}.
Definition shared_store : store :=
  <[0%nat := sample_band (5 # 1)]> (<[1%nat := sample_band (5 # 1)]> ∅).

(** ** Vocabulary of the stated properties *)

(** The list position a valid Python index denotes. *)
Definition index_pos {A} (l : list A) (i : Z) : nat :=
  Z.to_nat (if i <? 0 then i + Z.of_nat (length l) else i).

(** Column [c] lies in one of the half-open ranges. *)
Definition covered (ls : list (Z * Z)) (c : Z) : Prop :=
  exists l, In l ls /\ fst l <= c < snd l.

(** The boundaries are ordered and abutting from [a] to [b]: each range
    starts where the previous one ended.  Such ranges are pairwise
    disjoint and their union is [a, b). *)
Fixpoint tiles (a b : Z) (ls : list (Z * Z)) : Prop :=
  match ls with
  | [] => a = b
  | l :: rest => fst l = a /\ a <= snd l /\ tiles (snd l) b rest
  end.

(** The peak distance [detect_lanes] asks for is one [find_peaks]
    accepts: [width // (num_lanes + 1) >= 1], or no lane count. *)
Definition distance_ok (width : Z) (num_lanes : option Z) : Prop :=
  match num_lanes with
  | None => True
  | Some n => n = 0 \/ (n + 1 <> 0 /\ 1 <= width / (n + 1))
  end.

(** Every peak the backend reports is a position of the profile. *)
Definition peaks_in_profile (peak_search : list Q -> Z -> option Q -> list (nat * Q)) : Prop :=
  forall x d p, Forall (fun q => (fst q < length x)%nat) (peak_search x d p).

(** The boundary list does not decrease, starting from [a]. *)
Fixpoint nondecreasing_from (a : Z) (bs : list Z) : Prop :=
  match bs with
  | [] => True
  | b :: rest => a <= b /\ nondecreasing_from b rest
  end.

(** Rows [y_start], ..., [y_end - 1] of an array, read one index at a
    time. *)
Definition region_rows (a : ndarray2) (y_start y_end : Z) : list (list Q) :=
  map (fun i => nth i (rows a) [])
      (seq (Z.to_nat y_start) (Z.to_nat (y_end - y_start))).

(** [v] is the largest sample of a region. *)
Definition is_max_of (v : Q) (region : list Q) : Prop :=
  (exists y, In y region /\ (y == v)%Q) /\
  (forall y, In y region -> (y <= v)%Q).

(** The design document's reading of the calibration beyond the marker
    range: the line through two markers [(x0, y0)] and [(x1, y1)] of the
    log-weight curve, continued to [x]. *)
Definition extrapolate_log (x0 : Q) (y0 : R) (x1 : Q) (y1 : R) (x : Q) : R :=
  (y0 + (y1 - y0) / (Q2R x1 - Q2R x0) * (Q2R x - Q2R x0))%R.

(** Marker positions in ascending order, each strictly beyond the
    previous one (the order [np.interp] asks for). *)
Definition ascending (xs : list Q) : Prop := Sorted Qlt xs.

(** A band record with its [normalized_intensity] key left out: what
    must agree between two records that differ at most in that key. *)
Definition without_normalized (b : band) : band :=
  {| position := position b; intensity := intensity b;
     prominence := prominence b; width := width b;
     mean_intensity := mean_intensity b; max_intensity := max_intensity b;
     total_intensity := total_intensity b; area := area b;
     volume := volume b; normalized_intensity := None |}.

(** Each band of a gel result is a dictionary of its own, as
    [analyze_gel] builds them: no band object occurs twice. *)
Definition distinct_bands (g : gel) : Prop := NoDup (band_locs g).

(** [gel_results['lanes'][lane_idx]['bands'][band_idx]] *)
Definition select_band (g : gel) (lane_idx band_idx : Z) : result loc :=
  ln ← index (lanes g) lane_idx;
  index (bands ln) band_idx.

(** The lane index is in range, and the band index is in range within
    that lane (both in Python's sense: [-len <= i < len]). *)
Definition band_index_valid (g : gel) (lane_idx band_idx : Z) : Prop :=
  in_range (lanes g) lane_idx /\
  forall ln, index (lanes g) lane_idx = Ok ln -> in_range (bands ln) band_idx.

(** The conditions under which [compare_bands] has no metrics to give:
    an index out of range, or a total intensity of zero in either of
    the two bands. *)
Definition comparison_undefined (g : gel) (s : store)
    (lane1 lane2 band_index : Z) : Prop :=
  ~ band_index_valid g lane1 band_index \/
  ~ band_index_valid g lane2 band_index \/
  exists l1 l2,
    select_band g lane1 band_index = Ok l1 /\
    select_band g lane2 band_index = Ok l2 /\
    ((total_intensity (s !!! l2) == 0)%Q \/ (total_intensity (s !!! l1) == 0)%Q).

(** ** Further functions of the module, and their vocabulary *)

(** [255 - image] *)
Definition invert_gel (image : ndarray2) : ndarray2 :=
  {| ncols := ncols image;
     rows := map (map (fun v => ((255 # 1) - v)%Q)) (rows image) |}.

(** Sample [(i, j)] of an array (0 outside it). *)
Definition sample (a : ndarray2) (i j : nat) : Q :=
  nth j (nth i (rows a) []) 0%Q.

(** Two arrays of the same shape with numerically equal samples. *)
Definition same_samples (a b : ndarray2) : Prop :=
  ncols a = ncols b /\ Forall2 (Forall2 Qeq) (rows a) (rows b).

(** Every sample is a grey level of an 8-bit image. *)
Definition grey_levels (a : ndarray2) : Prop :=
  Forall (Forall (fun v => (0 <= v)%Q /\ (v <= 255 # 1)%Q)) (rows a).

(** The [distance] argument [detect_lanes] passes to [find_peaks]. *)
Definition requested_distance (width : Z) (num_lanes : option Z) : Z :=
  if truthy num_lanes then width / (default 0 num_lanes + 1) else 50.

(** The separator positions [detect_lanes] gets from [find_peaks]. *)
Definition separators (sg_smooth : list Q -> nat -> nat -> list Q)
    (peak_search : list Q -> Z -> option Q -> list (nat * Q))
    (image : ndarray2) (num_lanes : option Z) : list Z :=
  map (fun p => Z.of_nat (fst p))
      (peak_search (map Qopp (sg_smooth (sum_axis0 image) 51%nat 3%nat))
         (requested_distance (Z.of_nat (ncols image)) num_lanes) None).

(** A backend that reports one separator, at column 50. *)
Definition peak_at_50 (_ : list Q) (_ : Z) (_ : option Q) : list (nat * Q) :=
  [(50%nat, 0%Q)].

(** An image of two rows and four columns. *)
Definition small_image : ndarray2 :=
  {| ncols := 4; rows := [[1; 2; 3; 4]; [5; 6; 7; 8]]%Q |}.

(** The sum of the [normalized_intensity] values of a lane's bands (a
    band without the key counts 0). *)
Definition normalized_total (s : store) (ln : lane) : Q :=
  fold_left (fun acc l => (acc + default 0%Q (normalized_intensity (s !!! l)))%Q)
            (bands ln) 0%Q.

(** Two stores hold, at every identity, band records that differ at most
    in [normalized_intensity]. *)
Definition same_measurements (a b : store) : Prop :=
  forall l, without_normalized (a !!! l) = without_normalized (b !!! l).

(** The value every lane is scaled to: the total of the reference lane
    when one is given, else the mean of the lane totals. *)
Definition normalization_target (g : gel) (s : store)
    (reference_lane : option Z) (norm : Q) : Prop :=
  match reference_lane with
  | Some r => exists ln, index (lanes g) r = Ok ln /\ norm = lane_total s ln
  | None => norm = np_mean (map (lane_total s) (lanes g))
  end.

(** Bands 0 and 1 with total intensities 10 and 5. *)
Definition pair_store : store :=
  <[0%nat := sample_band (10 # 1)]> (<[1%nat := sample_band (5 # 1)]> ∅).

(** ** Properties of the Python primitives *)

Lemma bind_Ok {A B} (a : A) (f : A -> result B) : (Ok a ≫= f) = f a.
Proof. reflexivity. Qed.

Lemma index_in_range {A} (l : list A) (i : Z) :
  in_range l i -> exists x, index l i = Ok x.
Proof.
  unfold in_range, index. intros Hr.
  set (n := Z.of_nat (length l)) in *.
  set (j := if i <? 0 then i + n else i).
  assert (Hj : 0 <= j < n) by (subst j; destruct (Z.ltb_spec i 0); lia).
  destruct (Z.ltb_spec j 0); [lia|].
  destruct (Z.leb_spec n j); [lia|]. simpl.
  destruct (nth_error l (Z.to_nat j)) eqn:E; [eauto|].
  apply nth_error_None in E. lia.
Qed.

Lemma index_out_of_range {A} (l : list A) (i : Z) :
  ~ in_range l i -> index l i = Raise IndexError.
Proof.
  unfold in_range, index. intros Hr.
  set (n := Z.of_nat (length l)) in *.
  destruct (Z.ltb_spec i 0).
  - destruct (Z.ltb_spec (i + n) 0); [reflexivity|].
    destruct (Z.leb_spec n (i + n)); [reflexivity|]. lia.
  - destruct (Z.ltb_spec i 0); [lia|].
    destruct (Z.leb_spec n i); [reflexivity|]. lia.
Qed.

Lemma index_Ok_in_range {A} (l : list A) (i : Z) (x : A) :
  index l i = Ok x -> in_range l i.
Proof.
  intros H. destruct (Z_lt_dec i (- Z.of_nat (length l))) as [Hlo|Hlo].
  - rewrite index_out_of_range in H by (unfold in_range; lia). discriminate.
  - destruct (Z_lt_dec i (Z.of_nat (length l))) as [Hhi|Hhi].
    + unfold in_range; lia.
    + rewrite index_out_of_range in H by (unfold in_range; lia). discriminate.
Qed.

Lemma index_raises_only_IndexError {A} (l : list A) (i : Z) (e : exn) :
  index l i = Raise e -> e = IndexError.
Proof.
  unfold index. intros H.
  destruct (_ || _); [congruence|].
  destruct (nth_error _ _); congruence.
Qed.

Lemma index_Ok_nth {A} (l : list A) (i : Z) (x : A) :
  index l i = Ok x -> nth_error l (index_pos l i) = Some x.
Proof.
  unfold index, index_pos. intros H.
  destruct (_ || _); [discriminate|].
  destruct (nth_error _ _); congruence.
Qed.

Lemma index_map {A B} (f : A -> B) (l : list A) (i : Z) (x : A) :
  index l i = Ok x -> index (map f l) i = Ok (f x).
Proof.
  unfold index. rewrite length_map. intros H.
  destruct (_ || _); [discriminate|].
  rewrite nth_error_map.
  destruct (nth_error _ _); [|discriminate].
  simpl. congruence.
Qed.

Lemma index_nonneg {A} (l : list A) (k : nat) (x : A) :
  nth_error l k = Some x -> index l (Z.of_nat k) = Ok x.
Proof.
  intros H. unfold index.
  assert (Hk : (k < length l)%nat) by (apply nth_error_Some; congruence).
  destruct (Z.ltb_spec (Z.of_nat k) 0); [lia|].
  destruct (Z.ltb_spec (Z.of_nat k) 0); [lia|].
  destruct (Z.leb_spec (Z.of_nat (length l)) (Z.of_nat k)); [lia|].
  simpl. rewrite Nat2Z.id, H. reflexivity.
Qed.

(** ** Lane segmenter and band detector: the smoothing windows *)

(** Case split on whether any peak was found. *)
Ltac case_peaks :=
  match goal with
  | |- context [(0 <? ?n)%nat] => destruct (0 <? n)%nat
  end.

Lemma length_sum_axis0 (a : ndarray2) : length (sum_axis0 a) = ncols a.
Proof. unfold sum_axis0. now rewrite length_map, length_seq. Qed.

Lemma length_mean_axis1 (a : ndarray2) : length (mean_axis1 a) = nrows a.
Proof. unfold mean_axis1, nrows. now rewrite length_map. Qed.

Lemma savgol_filter_narrow sg (x : list Q) (w p : nat) :
  (length x < w)%nat -> savgol_filter sg x w p = Raise ValueError.
Proof.
  intros H. unfold savgol_filter.
  destruct (w <=? p)%nat; [reflexivity|].
  destruct (Nat.ltb_spec (length x) w); [reflexivity|lia].
Qed.

Lemma savgol_filter_wide sg (x : list Q) (w p : nat) :
  (p < w)%nat -> (w <= length x)%nat ->
  savgol_filter sg x w p = Ok (sg x w p).
Proof.
  intros Hp H. unfold savgol_filter.
  destruct (Nat.leb_spec w p); [lia|].
  destruct (Nat.ltb_spec (length x) w); [lia|reflexivity].
Qed.

Lemma bands_of_peaks_ok (smoothed : list Q) (found : list (nat * Q)) :
  Forall (fun q => (fst q < length smoothed)%nat) found ->
  exists bs, bands_of_peaks smoothed found = Ok bs.
Proof.
  induction 1 as [|[peak prom] rest Hp _ [bs IH]]; simpl.
  - eauto.
  - simpl in Hp.
    destruct (nth_error smoothed peak) eqn:E.
    + rewrite (index_nonneg _ _ _ E). simpl. rewrite IH. simpl. eauto.
    + apply nth_error_None in E. lia.
Qed.

Lemma detect_lanes_narrow sg ps (image : ndarray2) (N : option Z) :
  (ncols image < 51)%nat ->
  detect_lanes sg ps image N "projection" = Raise ValueError.
Proof.
  intros H. unfold detect_lanes. simpl String.eqb. cbv iota.
  rewrite savgol_filter_narrow by (rewrite length_sum_axis0; exact H).
  reflexivity.
Qed.

Lemma detect_bands_short sg ps std (lane_image : ndarray2) (d : Z) :
  (nrows lane_image < 11)%nat ->
  detect_bands sg ps std lane_image d = Raise ValueError.
Proof.
  intros H. unfold detect_bands.
  rewrite savgol_filter_narrow by (rewrite length_mean_axis1; exact H).
  reflexivity.
Qed.

Lemma floordiv_nonzero (a b : Z) : b <> 0 -> floordiv a b = Ok (a / b).
Proof. intros H. unfold floordiv. destruct (Z.eqb_spec b 0); [contradiction|reflexivity]. Qed.

Lemma floordiv_zero (a : Z) : floordiv a 0 = Raise ZeroDivisionError.
Proof. reflexivity. Qed.

Lemma find_peaks_accepts ps (x : list Q) (d : Z) (p : option Q) :
  1 <= d -> find_peaks ps x d p = Ok (ps x d p).
Proof.
  intros H. unfold find_peaks. destruct (Z.ltb_spec d 1); [lia|reflexivity].
Qed.

Lemma find_peaks_rejects ps (x : list Q) (d : Z) (p : option Q) :
  d < 1 -> find_peaks ps x d p = Raise ValueError.
Proof.
  intros H. unfold find_peaks. destruct (Z.ltb_spec d 1); [reflexivity|lia].
Qed.

Lemma detect_lanes_returns_iff sg ps (image : ndarray2) (N : option Z) :
  is_ok (detect_lanes sg ps image N "projection") = true <->
  (51 <= ncols image)%nat /\ distance_ok (Z.of_nat (ncols image)) N.
Proof.
  destruct (Nat.lt_ge_cases (ncols image) 51) as [Hn|Hw].
  { rewrite detect_lanes_narrow by exact Hn. simpl. split; [discriminate|lia]. }
  unfold detect_lanes. simpl String.eqb. cbv iota.
  rewrite savgol_filter_wide by (rewrite ?length_sum_axis0; lia).
  unfold mbind at 1. unfold result_bind at 1.
  destruct N as [n|]; simpl truthy; simpl default.
  - destruct (Z.eqb_spec n 0) as [->|Hn0]; simpl negb; cbv iota.
    + unfold mbind, result_bind. rewrite find_peaks_accepts by lia.
      case_peaks; simpl; (split; [intros _; split; [lia|now left]|reflexivity]).
    + destruct (Z.eq_dec (n + 1) 0) as [Hz|Hz].
      * rewrite Hz, floordiv_zero.
        simpl. split; [discriminate|]. intros [_ [?|[? _]]]; congruence.
      * rewrite (floordiv_nonzero _ (n + 1)) by exact Hz.
        unfold mbind, result_bind.
        destruct (Z_lt_le_dec (Z.of_nat (ncols image) / (n + 1)) 1) as [Hd|Hd].
        { rewrite find_peaks_rejects by exact Hd.
          simpl. split; [discriminate|]. intros [_ [?|[_ ?]]]; [congruence|lia]. }
        rewrite find_peaks_accepts by exact Hd.
        rewrite (floordiv_nonzero _ n) by exact Hn0.
        case_peaks;
          (simpl; split; [intros _; split; [lia|right; split; assumption]|reflexivity]).
  - unfold mbind, result_bind. rewrite find_peaks_accepts by lia.
    case_peaks; simpl; (split; [intros _; split; [lia|exact I]|reflexivity]).
Qed.

Lemma detect_bands_returns_iff sg ps std (lane_image : ndarray2) (d : Z) :
  peaks_in_profile ps ->
  is_ok (detect_bands sg ps std lane_image d) = true <->
  (11 <= nrows lane_image)%nat /\ 1 <= d.
Proof.
  intros Hps.
  destruct (Nat.lt_ge_cases (nrows lane_image) 11) as [Hn|Hw].
  { rewrite detect_bands_short by exact Hn. simpl. split; [discriminate|lia]. }
  unfold detect_bands.
  rewrite savgol_filter_wide by (rewrite ?length_mean_axis1; lia).
  unfold mbind, result_bind.
  destruct (Z_lt_le_dec d 1) as [Hd|Hd].
  { rewrite find_peaks_rejects by exact Hd. simpl. split; [discriminate|lia]. }
  rewrite find_peaks_accepts by exact Hd.
  destruct (bands_of_peaks_ok (sg (mean_axis1 lane_image) 11%nat 2%nat)
              (ps (sg (mean_axis1 lane_image) 11%nat 2%nat) d
                  (Some (std (sg (mean_axis1 lane_image) 11%nat 2%nat) * (1 # 2))%Q)))
    as [bs Hbs]; [apply Hps|].
  rewrite Hbs. simpl. split; [intros _; split; [lia|assumption]|reflexivity].
Qed.

(** C3, counterexample: a 1 x 50 image makes [detect_lanes] raise, and a
    lane of 10 rows makes [detect_bands] raise. *)
Lemma narrow_inputs_raise :
  detect_lanes flat_smooth no_peaks (zero_image 50) None "projection"
    = Raise ValueError /\
  detect_bands flat_smooth no_peaks flat_std (zero_lane 10) 20
    = Raise ValueError.
Proof. split; reflexivity. Qed.

(** C3, as amended: the smoothing windows are fixed at 51 and 11 samples.
    [detect_lanes] raises [ValueError] on every image narrower than 51
    columns and [detect_bands] raises [ValueError] on every lane shorter
    than 11 rows; [detect_lanes] returns a boundary list exactly when the
    width is at least 51 and the peak distance is at least 1, and
    [detect_bands] returns a band list exactly when the height is at
    least 11 and [min_distance] is at least 1. *)
Theorem smoothing_windows_are_fixed sg ps std :
  peaks_in_profile ps ->
  (forall image N, (ncols image < 51)%nat ->
     detect_lanes sg ps image N "projection" = Raise ValueError) /\
  (forall lane_image d, (nrows lane_image < 11)%nat ->
     detect_bands sg ps std lane_image d = Raise ValueError) /\
  (forall image N,
     is_ok (detect_lanes sg ps image N "projection") = true <->
     (51 <= ncols image)%nat /\ distance_ok (Z.of_nat (ncols image)) N) /\
  (forall lane_image d,
     is_ok (detect_bands sg ps std lane_image d) = true <->
     (11 <= nrows lane_image)%nat /\ 1 <= d).
Proof.
  intros Hps. split; [|split; [|split]].
  - intros image N. apply detect_lanes_narrow.
  - intros lane_image d. apply detect_bands_short.
  - intros image N. apply detect_lanes_returns_iff.
  - intros lane_image d. apply detect_bands_returns_iff, Hps.
Qed.

Lemma smoothing_windows_are_fixed_witness :
  peaks_in_profile no_peaks /\
  detect_lanes flat_smooth no_peaks (zero_image 50) (Some 4) "projection"
    = Raise ValueError /\
  is_ok (detect_bands flat_smooth no_peaks flat_std (zero_lane 11) 20) = true.
Proof.
  assert (Hps : peaks_in_profile no_peaks) by (intros x d p; constructor).
  split; [exact Hps|].
  destruct (smoothing_windows_are_fixed flat_smooth no_peaks flat_std Hps)
    as (Hlanes & _ & _ & Hbands).
  split.
  - apply Hlanes. unfold zero_image. simpl. lia.
  - apply Hbands. unfold zero_lane, nrows. simpl. lia.
Defined.

(** ** Lane segmenter: coverage of the width *)

Lemma tiles_covered (ls : list (Z * Z)) (a b c : Z) :
  tiles a b ls -> (covered ls c <-> a <= c < b).
Proof.
  revert a. induction ls as [|[s e] rest IH]; simpl; intros a H.
  - subst. split; [intros (l & [] & _)|lia].
  - destruct H as (-> & Hle & Ht). specialize (IH _ Ht).
    assert (Hb : e <= b).
    { clear -Ht. revert e Ht. induction rest as [|[s' e'] r IHr]; simpl; intros e Ht.
      - lia.
      - destruct Ht as (_ & ? & Ht). specialize (IHr _ Ht). lia. }
    split.
    + intros (l & [<-|Hin] & Hc); simpl in *; [lia|].
      assert (e <= c < b) by (apply IH; exists l; auto). lia.
    + intros Hc. destruct (Z_lt_le_dec c e) as [Hlt|Hge].
      * exists (a, e). simpl. split; [auto|lia].
      * destruct (proj2 IH) as (l' & Hin & Hl); [lia|].
        exists l'. split; [right; exact Hin|exact Hl].
Qed.

(** The path taken when separators are found: the lanes tile the whole
    width as soon as the boundary list does not decrease. *)
Lemma consecutive_tiles (b0 : Z) (peaks : list Z) (w : Z) :
  nondecreasing_from b0 (peaks ++ [w]) ->
  tiles b0 w (consecutive (b0 :: peaks ++ [w])).
Proof.
  revert b0. induction peaks as [|b1 rest IH]; intros b0 H.
  - simpl in *. intuition.
  - destruct H as [Hle Hrest]. specialize (IH b1 Hrest).
    change (consecutive (b0 :: (b1 :: rest) ++ [w]))
      with ((b0, b1) :: consecutive (b1 :: rest ++ [w])).
    simpl tiles. repeat split; assumption.
Qed.

Lemma range_succ (n : Z) : 0 <= n -> range (n + 1) = range n ++ [n].
Proof.
  intros H. unfold range.
  replace (Z.to_nat (n + 1)) with (S (Z.to_nat n)) by lia.
  rewrite seq_S, map_app. simpl. now rewrite Z2Nat.id.
Qed.

Lemma tiles_app (a b c : Z) (l1 l2 : list (Z * Z)) :
  tiles a b l1 -> tiles b c l2 -> tiles a c (l1 ++ l2).
Proof.
  revert a. induction l1 as [|l r IH]; simpl; intros a H1 H2.
  - now subst.
  - destruct H1 as (? & ? & ?). repeat split; auto.
Qed.

(** The fallback path: [num_lanes] lanes of [lane_width] columns tile
    [0, num_lanes * lane_width), whatever the image width is. *)
Lemma equal_lanes_tiles (lane_width num_lanes : Z) :
  0 <= lane_width -> 0 <= num_lanes ->
  tiles 0 (num_lanes * lane_width) (equal_lanes lane_width num_lanes).
Proof.
  intros Hw Hn. revert num_lanes Hn.
  apply (natlike_ind (fun n =>
           tiles 0 (n * lane_width) (equal_lanes lane_width n))).
  - reflexivity.
  - intros n Hn IH. unfold equal_lanes in *. unfold Z.succ.
    rewrite range_succ by exact Hn. rewrite map_app.
    apply (tiles_app _ (n * lane_width)); [exact IH|].
    simpl. repeat split; nia.
Qed.

(** The fallback path in general: with [num_lanes = n > 0] and no
    separator found, the lanes returned cover exactly the columns below
    [n * (width // n)]; the last [width mod n] columns are in no lane. *)
Lemma detect_lanes_fallback_cover sg ps (image : ndarray2) (n : Z) :
  (51 <= ncols image)%nat -> 0 < n ->
  1 <= Z.of_nat (ncols image) / (n + 1) ->
  ps (map Qopp (sg (sum_axis0 image) 51%nat 3%nat))
     (Z.of_nat (ncols image) / (n + 1)) None = [] ->
  let width := Z.of_nat (ncols image) in
  detect_lanes sg ps image (Some n) "projection"
    = Ok (equal_lanes (width / n) n) /\
  forall c, covered (equal_lanes (width / n) n) c <-> 0 <= c < n * (width / n).
Proof.
  intros Hw Hn Hd Hnone width. split.
  - unfold detect_lanes. simpl String.eqb. cbv iota.
    rewrite savgol_filter_wide by (rewrite ?length_sum_axis0; lia).
    rewrite bind_Ok. simpl truthy. simpl default.
    destruct (Z.eqb_spec n 0); [lia|]. simpl negb. cbv iota.
    rewrite (floordiv_nonzero _ (n + 1)) by lia. rewrite bind_Ok.
    rewrite find_peaks_accepts by exact Hd. rewrite bind_Ok, Hnone.
    simpl. rewrite (floordiv_nonzero _ n) by lia. reflexivity.
  - intros c. apply tiles_covered, equal_lanes_tiles; [|lia].
    apply Z.div_pos; subst width; lia.
Qed.

(** C2: on an all-zero image of width 100 with 3 requested lanes no
    separator is found, the fallback returns three lanes of 33 columns,
    and column 99 lies in none of them. *)
Theorem detect_lanes_fallback_loses_columns :
  detect_lanes flat_smooth no_peaks (zero_image 100) (Some 3) "projection"
    = Ok [(0, 33); (33, 66); (66, 99)] /\
  ~ covered [(0, 33); (33, 66); (66, 99)] 99.
Proof.
  split; [reflexivity|].
  intros (l & Hin & Hc). simpl in Hin.
  destruct Hin as [<-|[<-|[<-|[]]]]; simpl in Hc; lia.
Qed.

(** ** Band quantifier: region clipping *)

Lemma firstn_as_nth {A} (d : A) (l : list A) (k : nat) :
  (k <= length l)%nat -> firstn k l = map (fun i => nth i l d) (seq 0 k).
Proof.
  revert k. induction l as [|x l IH]; intros [|k] H; simpl in *; try reflexivity; try lia.
  rewrite <- seq_shift, map_map. f_equal. apply IH. lia.
Qed.

Lemma skipn_firstn_as_nth {A} (d : A) (l : list A) (j k : nat) :
  (j + k <= length l)%nat ->
  firstn k (skipn j l) = map (fun i => nth i l d) (seq j k).
Proof.
  revert j. induction l as [|x l IH]; intros [|j] H; simpl in H.
  - assert (k = 0)%nat as -> by lia. reflexivity.
  - lia.
  - rewrite skipn_O. apply firstn_as_nth. exact H.
  - rewrite skipn_cons, <- seq_shift, map_map. apply IH. lia.
Qed.

Lemma slice_as_nth {A} (d : A) (l : list A) (a b : Z) :
  0 <= a <= b -> b <= Z.of_nat (length l) ->
  slice l a b = map (fun i => nth i l d) (seq (Z.to_nat a) (Z.to_nat (b - a))).
Proof.
  intros Hab Hb. unfold slice, slice_bound.
  destruct (Z.ltb_spec a 0); [lia|].
  destruct (Z.ltb_spec b 0); [lia|].
  rewrite !Z.min_l by lia.
  apply skipn_firstn_as_nth. lia.
Qed.

Lemma int_minus_half_width (p : Z) :
  int (inject_Z p - (20 # 1) / (2 # 1))%Q = p - 10.
Proof.
  unfold int. cbn -[Z.mul Z.add Z.quot Z.opp].
  change (Z.pos (1 * 2)) with 2. change (Z.pos (1 * (1 * 2))) with 2.
  replace (p * 2 + - (20 * 1) * 1) with ((p - 10) * 2) by lia.
  apply Z.quot_mul. discriminate.
Qed.

Lemma int_plus_half_width (p : Z) :
  int (inject_Z p + (20 # 1) / (2 # 1))%Q = p + 10.
Proof.
  unfold int. cbn -[Z.mul Z.add Z.quot Z.opp].
  change (Z.pos (1 * 2)) with 2. change (Z.pos (1 * (1 * 2))) with 2.
  replace (p * 2 + 20 * 1 * 1) with ((p + 10) * 2) by lia.
  apply Z.quot_mul. discriminate.
Qed.

Lemma Qmax_list_is_max (x : Q) (xs : list Q) :
  is_max_of (Qmax_list x xs) (x :: xs).
Proof.
  unfold Qmax_list. revert x.
  induction xs as [|z xs IH]; intros x; simpl.
  - split.
    + exists x. split; [now left|reflexivity].
    + intros y [<-|[]]. apply Qle_refl.
  - destruct (IH (Qmax x z)) as [(y & Hy & Heq) Hub]. split.
    + destruct Hy as [<-|Hy].
      * destruct (Q.max_spec x z) as [[_ Hm]|[_ Hm]].
        -- exists z. split; [right; now left|]. rewrite <- Heq, Hm. reflexivity.
        -- exists x. split; [now left|]. rewrite <- Heq, Hm. reflexivity.
      * exists y. split; [right; right; exact Hy|exact Heq].
    + intros y' [<-|[<-|Hy']].
      * eapply Qle_trans; [apply Q.le_max_l|apply Hub; now left].
      * eapply Qle_trans; [apply Q.le_max_r|apply Hub; now left].
      * apply Hub. right. exact Hy'.
Qed.

Lemma region_rows_length (a : ndarray2) (ys ye : Z) :
  length (region_rows a ys ye) = Z.to_nat (ye - ys).
Proof. unfold region_rows. now rewrite length_map, length_seq. Qed.

Lemma region_rows_width (a : ndarray2) (ys ye : Z) :
  wf_ndarray2 a -> 0 <= ys -> ye <= Z.of_nat (nrows a) ->
  Forall (fun r => length r = ncols a) (region_rows a ys ye).
Proof.
  intros Hwf Hys Hye. unfold region_rows.
  apply List.Forall_forall. intros r Hr.
  apply in_map_iff in Hr as (i & <- & Hi). apply in_seq in Hi.
  unfold wf_ndarray2 in Hwf. rewrite List.Forall_forall in Hwf.
  apply Hwf, nth_In. unfold nrows in Hye. lia.
Qed.

Lemma concat_nonempty {A} (n : nat) (ls : list (list A)) :
  (1 <= n)%nat -> (1 <= length ls)%nat ->
  Forall (fun r => length r = n) ls ->
  exists x xs, concat ls = x :: xs.
Proof.
  intros Hn Hl Hall. destruct ls as [|r ls]; simpl in Hl; [lia|].
  inversion Hall as [|? ? Hr _]; subst.
  destruct r as [|x r]; simpl in Hn; [lia|].
  simpl. eauto.
Qed.

(** C8: for a lane of height [h >= 1] and a band at a row [p] of
    [0, h), [quantify_band] with width 20 (also the default) takes rows
    [max(0, p - 10)] up to [min(h, p + 10)], a non-empty range inside
    [0, h), and returns the metrics of exactly those rows; for a band at
    row 0 the region has [min(10, h)] rows. *)
Theorem quantify_band_clips_region (lane_image : ndarray2) (p : Z) :
  wf_ndarray2 lane_image ->
  (1 <= ncols lane_image)%nat ->
  0 <= p < Z.of_nat (nrows lane_image) ->
  let h := Z.of_nat (nrows lane_image) in
  let y_start := Z.max 0 (p - 10) in
  let y_end := Z.min h (p + 10) in
  let region := concat (region_rows lane_image y_start y_end) in
  (0 <= y_start /\ y_start < y_end /\ y_end <= h) /\
  quantify_band lane_image p None = quantify_band lane_image p (Some (20 # 1)%Q) /\
  exists m,
    quantify_band lane_image p (Some (20 # 1)%Q) = Ok m /\
    m_position m = p /\
    m_width m = (20 # 1)%Q /\
    m_total_intensity m = Qsum region /\
    m_volume m = Qsum region /\
    m_mean_intensity m = (Qsum region / inject_Z (m_area m))%Q /\
    is_max_of (m_max_intensity m) region /\
    m_area m = (y_end - y_start) * Z.of_nat (ncols lane_image) /\
    (p = 0 -> m_area m = Z.min 10 h * Z.of_nat (ncols lane_image)).
Proof.
  intros Hwf Hcols Hp h y_start y_end region.
  assert (Hrange : 0 <= y_start /\ y_start < y_end /\ y_end <= h)
    by (subst y_start y_end h; lia).
  split; [exact Hrange|]. split; [reflexivity|].
  unfold quantify_band. simpl default.
  rewrite int_minus_half_width, int_plus_half_width.
  fold h y_start y_end.
  rewrite (slice_as_nth [] (rows lane_image) y_start y_end)
    by (unfold nrows in h; subst h; lia).
  fold (region_rows lane_image y_start y_end).
  rewrite region_rows_length.
  destruct (concat_nonempty (ncols lane_image) (region_rows lane_image y_start y_end))
    as (x & xs & Hreg).
  - exact Hcols.
  - rewrite region_rows_length. lia.
  - apply region_rows_width; [exact Hwf|lia|subst h; lia].
  - subst region. rewrite Hreg. eexists. split; [reflexivity|]. simpl.
    repeat split; try reflexivity.
    + apply Qmax_list_is_max.
    + apply Qmax_list_is_max.
    + f_equal. lia.
    + intros ->. subst y_start y_end. f_equal. lia.
Qed.

Lemma quantify_band_clips_region_witness :
  exists m,
    quantify_band small_lane 0 (Some (20 # 1)%Q) = Ok m /\
    m_area m = 6 /\ m_total_intensity m = (21 # 1)%Q.
Proof.
  assert (Hwf : wf_ndarray2 small_lane)
    by (repeat constructor).
  assert (Hcols : (1 <= ncols small_lane)%nat) by (simpl; lia).
  assert (Hp : 0 <= 0 < Z.of_nat (nrows small_lane)) by (unfold nrows; simpl; lia).
  destruct (quantify_band_clips_region small_lane 0 Hwf Hcols Hp)
    as (_ & _ & m & Hm & _ & _ & Htot & _ & _ & _ & Harea & _).
  exists m. split; [exact Hm|]. split.
  - rewrite Harea. reflexivity.
  - rewrite Htot. reflexivity.
Defined.

(** ** Molecular-weight calibrator *)

Lemma ln_10_pos : (0 < ln 10)%R.
Proof. rewrite <- ln_1. apply ln_increasing; lra. Qed.

Lemma pow10_log10 (x : R) : (0 < x)%R -> pow10 (log10 x) = x.
Proof.
  intros Hx. unfold pow10, log10, Rpower.
  replace (ln x / ln 10 * ln 10)%R with (ln x)
    by (field; apply Rgt_not_eq, ln_10_pos).
  apply exp_ln, Hx.
Qed.

Lemma log10_10 : log10 10 = 1%R.
Proof. unfold log10. field. apply Rgt_not_eq, ln_10_pos. Qed.

Lemma log10_100 : log10 100 = 2%R.
Proof.
  unfold log10. replace 100%R with (10 * 10)%R by lra.
  rewrite ln_mult by lra. field. apply Rgt_not_eq, ln_10_pos.
Qed.

Lemma pow10_0 : pow10 0 = 1%R.
Proof. unfold pow10. apply Rpower_O. lra. Qed.

(** From the last sample point on, [np.interp] returns the last sample
    value: there is no extrapolation to the right ... *)
Lemma interp_from_beyond_last (x x0 : Q) (y0 : R) (pts : list (Q * R))
    (xn : Q) (yn : R) :
  Forall (fun p => Qle_bool (fst p) x = true) (pts ++ [(xn, yn)]) ->
  interp_from x x0 y0 (pts ++ [(xn, yn)]) = yn.
Proof.
  revert x0 y0. induction pts as [|[x1 y1] rest IH]; intros x0 y0 H.
  - inversion H as [|? ? Hxn _]; subst. simpl in *. now rewrite Hxn.
  - inversion H as [|? ? Hx1 Hrest]; subst. simpl in Hx1.
    simpl. rewrite Hx1. apply IH, Hrest.
Qed.

(** ... and none to the left. *)
Lemma interp_before_first (x x0 : Q) (y0 : R) (xs : list Q) (fp : list R) :
  length xs = length fp -> Qle_bool x0 x = false ->
  interp x (x0 :: xs) (y0 :: fp) = Ok y0.
Proof.
  intros Hlen Hx. unfold interp. simpl length. rewrite Hlen, Nat.eqb_refl.
  simpl. rewrite Hx. reflexivity.
Qed.

Lemma Qle_bool_false_of_lt (a b : Q) : (a < b)%Q -> Qle_bool b a = false.
Proof.
  intros H. destruct (Qle_bool b a) eqn:E; [|reflexivity].
  apply Qle_bool_iff in E. exfalso. exact (Qlt_not_le _ _ H E).
Qed.

Lemma Qle_bool_true_of_lt (a b : Q) : (a < b)%Q -> Qle_bool a b = true.
Proof. intros H. apply Qle_bool_iff, Qlt_le_weak, H. Qed.

Lemma Qle_bool_refl (a : Q) : Qle_bool a a = true.
Proof. apply Qle_bool_iff, Qle_refl. Qed.

Lemma Qeq_bool_refl (a : Q) : Qeq_bool a a = true.
Proof. apply Qeq_bool_iff, Qeq_refl. Qed.

(** Scanning on from a sample point that is the query itself. *)
Lemma interp_from_at_previous (x : Q) (y0 : R) (xs : list Q) (fp : list R) :
  Forall (Qlt x) xs -> interp_from x x y0 (combine xs fp) = y0.
Proof.
  intros H. destruct xs as [|x1 xs]; [reflexivity|].
  destruct fp as [|y1 fp]; [reflexivity|].
  inversion H as [|? ? Hx1 _]; subst. simpl.
  rewrite (Qle_bool_false_of_lt _ _ Hx1), Qeq_bool_refl. reflexivity.
Qed.

Lemma interp_from_at_sample (xs : list Q) :
  forall (fp : list R) (i : nat) (x0 : Q) (y0 : R) (x : Q) (y : R),
  StronglySorted Qlt (x0 :: xs) ->
  nth_error xs i = Some x -> nth_error fp i = Some y ->
  interp_from x x0 y0 (combine xs fp) = y.
Proof.
  induction xs as [|x1 xs IH]; intros fp i x0 y0 x y Hs Hx Hy.
  - destruct i; discriminate.
  - destruct fp as [|y1 fp]; [destruct i; discriminate|].
    apply StronglySorted_inv in Hs as [Hs _].
    pose proof (StronglySorted_inv Hs) as [_ Hall].
    destruct i as [|i]; simpl in Hx, Hy.
    + injection Hx as <-. injection Hy as <-. simpl.
      rewrite Qle_bool_refl. apply interp_from_at_previous, Hall.
    + simpl.
      assert (Hlt : (x1 < x)%Q).
      { rewrite List.Forall_forall in Hall. eapply Hall, nth_error_In, Hx. }
      rewrite (Qle_bool_true_of_lt _ _ Hlt).
      eapply IH; eassumption.
Qed.

Lemma interp_at_sample (xs : list Q) (fp : list R) (i : nat) (x : Q) (y : R) :
  length xs = length fp -> ascending xs ->
  nth_error xs i = Some x -> nth_error fp i = Some y ->
  interp x xs fp = Ok y.
Proof.
  intros Hlen Hasc Hx Hy. unfold interp. rewrite Hlen, Nat.eqb_refl. simpl negb.
  apply (Sorted_StronglySorted Qlt_trans) in Hasc.
  destruct xs as [|x0 xs]; [destruct i; discriminate|].
  destruct fp as [|y0 fp]; [discriminate|]. simpl combine. cbv iota beta.
  destruct i as [|i]; simpl in Hx, Hy.
  - injection Hx as <-. injection Hy as <-.
    rewrite Qle_bool_refl. f_equal.
    apply interp_from_at_previous.
    apply StronglySorted_inv in Hasc. apply Hasc.
  - pose proof (StronglySorted_inv Hasc) as [_ Hall].
    assert (Hlt : (x0 < x)%Q).
    { rewrite List.Forall_forall in Hall. eapply Hall, nth_error_In, Hx. }
    rewrite (Qle_bool_true_of_lt _ _ Hlt). f_equal.
    eapply interp_from_at_sample; eassumption.
Qed.

(** C1: with markers at positions 10 and 20 of 100 kDa and 10 kDa, a
    band at position 30 (beyond the last marker) gets the last marker's
    10 kDa, while the line through the two markers in log space,
    continued to position 30, gives 1 kDa. *)
Theorem calculate_molecular_weight_clamps_beyond_range :
  calculate_molecular_weight (30 # 1) [10 # 1; 20 # 1]%Q [100 # 1; 10 # 1]%Q
    = Ok 10%R /\
  pow10 (extrapolate_log (10 # 1) (log10 100) (20 # 1) (log10 10) (30 # 1))
    = 1%R.
Proof.
  split.
  - unfold calculate_molecular_weight, interp. simpl.
    replace (Q2R 10) with 10%R by (unfold Q2R; simpl; lra).
    f_equal. apply pow10_log10. lra.
  - unfold extrapolate_log. rewrite log10_100, log10_10.
    transitivity (pow10 0); [|apply pow10_0].
    f_equal. unfold Q2R. simpl. lra.
Qed.

(** C9: for a marker ladder with ascending positions, at least two
    markers and positive weights, [calculate_molecular_weight] at the
    position of the [i]-th marker returns the weight of the [i]-th
    marker (in exact arithmetic, hence within the relative tolerance
    1e-6). *)
Theorem calculate_molecular_weight_at_marker
    (marker_positions marker_weights : list Q) (i : nat) (x w : Q) :
  length marker_positions = length marker_weights ->
  (2 <= length marker_positions)%nat ->
  ascending marker_positions ->
  Forall (fun v => (0 < v)%Q) marker_weights ->
  nth_error marker_positions i = Some x ->
  nth_error marker_weights i = Some w ->
  exists r,
    calculate_molecular_weight x marker_positions marker_weights = Ok r /\
    r = Q2R w /\
    (Rabs (r - Q2R w) <= / 1000000 * Q2R w)%R.
Proof.
  intros Hlen _ Hasc Hpos Hx Hw.
  assert (Hwpos : (0 < Q2R w)%R).
  { rewrite List.Forall_forall in Hpos.
    replace 0%R with (Q2R 0) by (unfold Q2R; simpl; lra).
    apply Qlt_Rlt, Hpos. eapply nth_error_In, Hw. }
  exists (Q2R w). split; [|split].
  - unfold calculate_molecular_weight.
    rewrite (interp_at_sample marker_positions
               (map (fun v => log10 (Q2R v)) marker_weights) i x (log10 (Q2R w))).
    + simpl. f_equal. apply pow10_log10, Hwpos.
    + now rewrite length_map.
    + exact Hasc.
    + exact Hx.
    + rewrite nth_error_map, Hw. reflexivity.
  - reflexivity.
  - replace (Q2R w - Q2R w)%R with 0%R by lra. rewrite Rabs_R0. lra.
Qed.

Lemma calculate_molecular_weight_at_marker_witness :
  exists r,
    calculate_molecular_weight (20 # 1) [10 # 1; 20 # 1]%Q [100 # 1; 10 # 1]%Q
      = Ok r /\
    r = Q2R (10 # 1).
Proof.
  destruct (calculate_molecular_weight_at_marker
              [10 # 1; 20 # 1]%Q [100 # 1; 10 # 1]%Q 1 (20 # 1) (10 # 1))
    as (r & Hr & Heq & _).
  - reflexivity.
  - simpl. lia.
  - repeat constructor.
  - repeat constructor.
  - reflexivity.
  - reflexivity.
  - exists r. split; [exact Hr|exact Heq].
Defined.

(** ** Pipeline orchestrator: band records are objects of their own *)

Lemma quantify_bands_alloc (lane_img : ndarray2) (found : list detected_band) :
  forall (s : store) (ls : list loc) (s' : store),
  quantify_bands lane_img found s = Ok (ls, s') ->
  NoDup ls /\ (forall l, l ∈ ls -> (l ∉ dom s) /\ (l ∈ dom s')) /\ (dom s ⊆ dom s').
Proof.
  induction found as [|b rest IH]; intros s ls s' H; simpl in H.
  - injection H as <- <-. split; [constructor|]. split; [|done].
    intros l Hl. inversion Hl.
  - destruct (quantify_band lane_img (db_position b) None) as [m|e];
      simpl in H; [|discriminate].
    destruct (quantify_bands lane_img rest
                (<[fresh (dom s) := update_band b m]> s))
      as [[ls2 s2]|e] eqn:E; simpl in H; [|discriminate].
    injection H as <- <-.
    destruct (IH _ _ _ E) as (Hnd & Hin & Hsub).
    rewrite dom_insert_L in Hin, Hsub.
    pose proof (is_fresh (dom s)) as Hfresh.
    split; [|split].
    + constructor; [|exact Hnd].
      intros Hl. apply Hin in Hl as [Hl _]. set_solver.
    + intros l Hl. apply elem_of_cons in Hl as [->|Hl].
      * split; [exact Hfresh|set_solver].
      * apply Hin in Hl. set_solver.
    + set_solver.
Qed.

Lemma analyze_lanes_alloc sg ps std (image : ndarray2) (lane_bounds : list (Z * Z)) :
  forall (i : Z) (s : store) (ls : list lane) (s' : store),
  analyze_lanes sg ps std image lane_bounds i s = Ok (ls, s') ->
  NoDup (concat (map bands ls)) /\
  (forall l, l ∈ concat (map bands ls) -> (l ∉ dom s) /\ (l ∈ dom s')) /\
  (dom s ⊆ dom s').
Proof.
  induction lane_bounds as [|bnds rest IH]; intros i s ls s' H; simpl in H.
  - injection H as <- <-. split; [constructor|]. split; [|done].
    intros l Hl. inversion Hl.
  - destruct (detect_bands sg ps std (extract_lane image bnds) 20) as [found|e];
      simpl in H; [|discriminate].
    destruct (quantify_bands (extract_lane image bnds) found s)
      as [[qb s1]|e] eqn:Eq; simpl in H; [|discriminate].
    destruct (analyze_lanes sg ps std image rest (i + 1) s1)
      as [[ls2 s2]|e] eqn:Ea; simpl in H; [|discriminate].
    injection H as <- <-. simpl.
    destruct (quantify_bands_alloc _ _ _ _ _ Eq) as (Hnd1 & Hin1 & Hsub1).
    destruct (IH _ _ _ _ Ea) as (Hnd2 & Hin2 & Hsub2).
    split; [|split].
    + apply NoDup_app. split; [exact Hnd1|]. split; [|exact Hnd2].
      intros l Hl1 Hl2. apply Hin1 in Hl1. apply Hin2 in Hl2. set_solver.
    + intros l Hl. apply elem_of_app in Hl as [Hl|Hl].
      * apply Hin1 in Hl. set_solver.
      * apply Hin2 in Hl. set_solver.
    + set_solver.
Qed.

(** Every gel result that [analyze_gel] returns has distinct band
    records. *)
Lemma analyze_gel_distinct_bands sg ps std (image : ndarray2)
    (N : option Z) (lane_bounds : option (list (Z * Z)))
    (s : store) (g : gel) (s' : store) :
  analyze_gel sg ps std image N lane_bounds s = Ok (g, s') ->
  distinct_bands g.
Proof.
  unfold analyze_gel. intros H.
  destruct (match lane_bounds with
            | Some lb => Ok lb
            | None => detect_lanes sg ps image N "projection"
            end) as [lb|e]; simpl in H; [|discriminate].
  destruct (analyze_lanes sg ps std image lb 0 s) as [[ls s2]|e] eqn:Ea;
    simpl in H; [|discriminate].
  injection H as <- <-.
  unfold distinct_bands, band_locs. simpl.
  apply (analyze_lanes_alloc _ _ _ _ _ _ _ _ _ Ea).
Qed.

(** ** Lane normaliser *)

Lemma write_normalized_same (f : Q) (s : store) (l : loc) :
  write_normalized f s l !!! l
  = set_normalized (s !!! l) (total_intensity (s !!! l) * f)%Q.
Proof. unfold write_normalized. apply lookup_total_insert_eq. Qed.

Lemma write_normalized_other (f : Q) (s : store) (l l' : loc) :
  l <> l' -> write_normalized f s l !!! l' = s !!! l'.
Proof. intros H. unfold write_normalized. now apply lookup_total_insert_ne. Qed.

Lemma write_normalized_frame (f : Q) (s : store) (l l' : loc) :
  without_normalized (write_normalized f s l !!! l')
  = without_normalized (s !!! l').
Proof.
  destruct (Nat.eq_dec l l') as [->|Hne].
  - rewrite write_normalized_same. reflexivity.
  - now rewrite write_normalized_other.
Qed.

Lemma without_normalized_total (b b' : band) :
  without_normalized b = without_normalized b' ->
  total_intensity b = total_intensity b'.
Proof. intros H. apply (f_equal total_intensity) in H. exact H. Qed.

(** One lane: every band of the lane gets [total_intensity * factor]
    written, nothing else changes. *)
Lemma normalize_lane_spec (f : Q) (bs : list loc) (s : store) :
  let s' := fold_left (write_normalized f) bs s in
  (forall l, without_normalized (s' !!! l) = without_normalized (s !!! l)) /\
  (forall l, ~ In l bs -> s' !!! l = s !!! l) /\
  (forall l, In l bs ->
     normalized_intensity (s' !!! l) = Some (total_intensity (s !!! l) * f)%Q).
Proof.
  revert s. induction bs as [|l0 bs IH]; intros s; simpl.
  - repeat split; tauto.
  - destruct (IH (write_normalized f s l0)) as (Hframe & Hout & Hin).
    split; [|split].
    + intros l. rewrite Hframe. apply write_normalized_frame.
    + intros l Hl. rewrite Hout by tauto. apply write_normalized_other. tauto.
    + intros l Hl. destruct (in_dec Nat.eq_dec l bs) as [Hbs|Hbs].
      * rewrite (Hin l Hbs). do 2 f_equal.
        apply without_normalized_total, write_normalized_frame.
      * destruct Hl as [->|Hl]; [|contradiction].
        rewrite (Hout l Hbs), write_normalized_same. reflexivity.
Qed.

Lemma normalize_each_app (l1 l2 : list lane) (i : Z) (totals : list Q)
    (norm : Q) (s : store) :
  normalize_each (l1 ++ l2) i totals norm s
  = (s1 ← normalize_each l1 i totals norm s;
     normalize_each l2 (i + Z.of_nat (length l1)) totals norm s1).
Proof.
  revert i s. induction l1 as [|ln l1 IH]; intros i s.
  - simpl. now rewrite Z.add_0_r.
  - cbn [app normalize_each length].
    destruct (index totals i) as [t|e]; [|reflexivity].
    simpl. rewrite IH. do 2 f_equal. lia.
Qed.

(** The whole loop: it completes, writes [normalized_intensity] into
    every band of the lanes it visits, and changes nothing else. *)
Lemma normalize_each_spec (ls : list lane) :
  forall (i : Z) (totals : list Q) (norm : Q) (s : store),
  0 <= i -> i + Z.of_nat (length ls) <= Z.of_nat (length totals) ->
  exists s',
    normalize_each ls i totals norm s = Ok s' /\
    (forall l, without_normalized (s' !!! l) = without_normalized (s !!! l)) /\
    (forall l, ~ In l (concat (map bands ls)) -> s' !!! l = s !!! l) /\
    (forall l, In l (concat (map bands ls)) ->
       exists v, normalized_intensity (s' !!! l) = Some v).
Proof.
  induction ls as [|ln ls IH]; intros i totals norm s Hi Hlen.
  - exists s. simpl. repeat split; tauto.
  - cbn [normalize_each]. simpl length in Hlen.
    destruct (index_in_range totals i) as [t Ht]; [unfold in_range; lia|].
    rewrite Ht. simpl.
    set (f := if Qle_bool t 0 then 1%Q else (norm / t)%Q).
    destruct (normalize_lane_spec f (bands ln) s) as (Hf1 & Ho1 & Hi1).
    destruct (IH (i + 1) totals norm (fold_left (write_normalized f) (bands ln) s))
      as (s' & Hs' & Hf2 & Ho2 & Hi2); [lia|lia|].
    exists s'. split; [exact Hs'|]. split; [|split].
    + intros l. now rewrite Hf2, Hf1.
    + intros l Hl. rewrite in_app_iff in Hl.
      rewrite Ho2 by tauto. apply Ho1. tauto.
    + intros l Hl. apply in_app_iff in Hl.
      destruct (in_dec Nat.eq_dec l (concat (map bands ls))) as [Hin|Hnin].
      * apply Hi2, Hin.
      * destruct Hl as [Hl|Hl]; [|contradiction].
        rewrite (Ho2 l Hnin), (Hi1 l Hl). eauto.
Qed.

Lemma factor_of_own_total (t : Q) :
  ((if Qle_bool t 0 then 1 else t / t) == 1)%Q.
Proof.
  destruct (Qle_bool t 0) eqn:E; [reflexivity|].
  apply Qmult_inv_r. intros H0. rewrite H0 in E. discriminate.
Qed.

Lemma distinct_bands_later_lanes (pre post : list lane) (ln : lane) (l : loc) :
  NoDup (concat (map bands (pre ++ ln :: post))) ->
  In l (bands ln) -> ~ In l (concat (map bands post)).
Proof.
  rewrite map_app, concat_app. simpl. intros Hnd Hl Hpost.
  apply NoDup_app in Hnd as (_ & _ & Hnd).
  apply NoDup_app in Hnd as (_ & Hdisj & _).
  apply (Hdisj l); now apply list_elem_of_In.
Qed.

(** C10: with any method other than ['total_intensity'] the call returns
    the gel result it was given, with no write to any band and no
    exception, whatever the reference lane. *)
Theorem normalize_lanes_unknown_method (g : gel) (reference_lane : option Z)
    (method : string) (s : store) :
  method <> "total_intensity"%string ->
  normalize_lanes g reference_lane method s = Ok (g, s).
Proof.
  intros H. unfold normalize_lanes.
  apply String.eqb_neq in H. now rewrite H.
Qed.

Lemma normalize_lanes_unknown_method_witness :
  normalize_lanes sample_gel (Some 7) "loading_control" sample_store
  = Ok (sample_gel, sample_store).
Proof.
  apply normalize_lanes_unknown_method. discriminate.
Defined.

(** C4, counterexample: the default call writes [normalized_intensity]
    into band 0 of the gel result it was given and returns that same
    gel result. *)
Lemma normalize_lanes_writes_into_input :
  exists s' v,
    normalize_lanes sample_gel None "total_intensity" sample_store
      = Ok (sample_gel, s') /\
    normalized_intensity (sample_store !!! 0%nat) = None /\
    normalized_intensity (s' !!! 0%nat) = Some v /\
    (v == 5 # 2)%Q.
Proof.
  eexists. eexists. split; [vm_compute; reflexivity|].
  split; [reflexivity|]. split; [vm_compute; reflexivity|]. reflexivity.
Qed.

(** C4, as amended: the default call enriches its input in place.  It
    returns the gel result it was given, after writing
    [normalized_intensity] into every band record of it; the other keys
    of those records and all other records are unchanged. *)
Theorem normalize_lanes_enriches_in_place (g : gel) (s : store) :
  exists s',
    normalize_lanes g None "total_intensity" s = Ok (g, s') /\
    (forall l, In l (band_locs g) ->
       exists v, normalized_intensity (s' !!! l) = Some v) /\
    (forall l, without_normalized (s' !!! l) = without_normalized (s !!! l)) /\
    (forall l, ~ In l (band_locs g) -> s' !!! l = s !!! l).
Proof.
  unfold normalize_lanes. simpl String.eqb. cbv iota. simpl mbind.
  destruct (normalize_each_spec (lanes g) 0
              (map (lane_total s) (lanes g))
              (np_mean (map (lane_total s) (lanes g))) s)
    as (s' & Hs' & Hframe & Hout & Hin); [lia|rewrite length_map; lia|].
  exists s'. rewrite Hs'. simpl. repeat split; assumption.
Qed.

(** C7: for a gel result of distinct band records and a reference lane
    index [r] that selects lane [ln], normalising against [r] returns
    normally and leaves every band of [ln] with [normalized_intensity]
    equal to its [total_intensity], also when the lane's total is 0. *)
Theorem normalize_lanes_reference_lane (g : gel) (r : Z) (ln : lane) (s : store) :
  distinct_bands g ->
  index (lanes g) r = Ok ln ->
  exists s',
    normalize_lanes g (Some r) "total_intensity" s = Ok (g, s') /\
    forall l, In l (bands ln) ->
      exists v, normalized_intensity (s' !!! l) = Some v /\
                (v == total_intensity (s' !!! l))%Q.
Proof.
  intros Hnd Hr. unfold normalize_lanes. simpl String.eqb. cbv iota.
  rewrite (index_map (lane_total s) _ _ _ Hr). simpl mbind.
  apply index_Ok_nth in Hr.
  destruct (nth_error_split _ _ Hr) as (pre & post & Hsplit & Hk).
  unfold distinct_bands, band_locs in Hnd. rewrite Hsplit in *.
  set (totals := map (lane_total s) (pre ++ ln :: post)).
  set (norm := lane_total s ln).
  rewrite normalize_each_app.
  destruct (normalize_each_spec pre 0 totals norm s)
    as (s1 & Hs1 & Hf1 & _ & _);
    [lia|subst totals; rewrite length_map, length_app; lia|].
  rewrite Hs1. simpl mbind. cbn [normalize_each].
  assert (Ht : index totals (0 + Z.of_nat (length pre)) = Ok norm).
  { rewrite Z.add_0_l. apply index_nonneg. subst totals norm.
    rewrite nth_error_map, nth_error_app2, Nat.sub_diag by lia. reflexivity. }
  rewrite Ht. simpl mbind.
  set (f := if Qle_bool norm 0 then 1%Q else (norm / norm)%Q).
  destruct (normalize_lane_spec f (bands ln) s1) as (Hf2 & _ & Hi2).
  destruct (normalize_each_spec post (0 + Z.of_nat (length pre) + 1) totals norm
              (fold_left (write_normalized f) (bands ln) s1))
    as (s' & Hs' & Hf3 & Ho3 & _);
    [lia|subst totals; rewrite length_map, length_app; simpl; lia|].
  exists s'. split; [now rewrite Hs'|].
  intros l Hl.
  pose proof (distinct_bands_later_lanes pre post ln l Hnd Hl) as Hlater.
  exists (total_intensity (s1 !!! l) * f)%Q. split.
  - rewrite (Ho3 l Hlater). apply Hi2, Hl.
  - rewrite (without_normalized_total _ _ (Hf3 l)).
    rewrite (without_normalized_total _ _ (Hf2 l)).
    subst f. rewrite factor_of_own_total. apply Qmult_1_r.
Qed.

Lemma normalize_lanes_reference_lane_witness :
  exists s',
    normalize_lanes sample_gel (Some 1) "total_intensity" sample_store
      = Ok (sample_gel, s') /\
    exists v, normalized_intensity (s' !!! 1%nat) = Some v /\
              (v == total_intensity (s' !!! 1%nat))%Q.
Proof.
  assert (Hnd : distinct_bands sample_gel).
  { unfold distinct_bands, band_locs. simpl. apply NoDup_ListNoDup.
    apply List.NoDup_cons; [intros [H|[]]; discriminate|].
    apply List.NoDup_cons; [intros []|]. apply List.NoDup_nil. }
  destruct (normalize_lanes_reference_lane sample_gel 1
              (sample_lane 2 [1%nat]) sample_store Hnd eq_refl)
    as (s' & Hs' & Hbands).
  exists s'. split; [exact Hs'|]. apply Hbands. simpl. now left.
Defined.

(** Why C7 asks for distinct band records: when a band of the reference
    lane is also a band of a later lane, the later lane's factor
    overwrites the reference lane's. *)
Lemma shared_band_is_overwritten :
  exists s' v,
    normalize_lanes shared_gel (Some 0) "total_intensity" shared_store
      = Ok (shared_gel, s') /\
    normalized_intensity (s' !!! 0%nat) = Some v /\
    (v == 5 # 2)%Q /\
    (total_intensity (s' !!! 0%nat) == 5 # 1)%Q.
Proof.
  eexists. eexists. split; [vm_compute; reflexivity|].
  split; [vm_compute; reflexivity|]. split; reflexivity.
Qed.

(** ** Band comparator *)

Lemma select_band_valid (g : gel) (a k : Z) :
  band_index_valid g a k -> exists l, select_band g a k = Ok l.
Proof.
  intros [Ha Hk]. unfold select_band.
  destruct (index_in_range _ _ Ha) as [ln Hln]. rewrite Hln. simpl.
  apply index_in_range, Hk, Hln.
Qed.

Lemma select_band_invalid (g : gel) (a k : Z) :
  ~ band_index_valid g a k -> select_band g a k = Raise IndexError.
Proof.
  intros Hinv. unfold select_band.
  destruct (index (lanes g) a) as [ln|e] eqn:Hln; simpl.
  - apply index_out_of_range. intros Hk. apply Hinv. split.
    + eapply index_Ok_in_range, Hln.
    + intros ln' Hln'. congruence.
  - f_equal. eapply index_raises_only_IndexError, Hln.
Qed.

Lemma select_band_Ok_valid (g : gel) (a k : Z) (l : loc) :
  select_band g a k = Ok l -> band_index_valid g a k.
Proof.
  unfold select_band. intros H.
  destruct (index (lanes g) a) as [ln|e] eqn:Hln; simpl in H; [|discriminate].
  split.
  - eapply index_Ok_in_range, Hln.
  - intros ln' Hln'. assert (ln' = ln) as -> by congruence.
    eapply index_Ok_in_range, H.
Qed.

Lemma band_index_valid_dec (g : gel) (a k : Z) :
  band_index_valid g a k \/ ~ band_index_valid g a k.
Proof.
  destruct (select_band g a k) as [l|e] eqn:E.
  - left. eapply select_band_Ok_valid, E.
  - right. intros H. apply select_band_valid in H as [l Hl]. congruence.
Qed.

(** The body of the [try] block, with the two band look-ups grouped. *)
Lemma compare_body_select (g : gel) (a b k : Z) (s : store) :
  compare_body g a b k s
  = (l1 ← select_band g a k;
     l2 ← select_band g b k;
     let band1 := s !!! l1 in
     let band2 := s !!! l2 in
     ratio ← truediv (total_intensity band1) (total_intensity band2);
     fold_change ← (if Qle_bool 1 ratio then Ok ratio
                    else truediv (- (1)) ratio);
     pd ← truediv (total_intensity band1 - total_intensity band2)
                  (total_intensity band2);
     Ok {| lane1_intensity := total_intensity band1;
           lane2_intensity := total_intensity band2;
           ratio := ratio;
           fold_change := fold_change;
           percent_difference := (pd * (100 # 1))%Q |}).
Proof.
  unfold compare_body, select_band.
  destruct (index (lanes g) a) as [ln1|e1]; simpl; [|reflexivity].
  destruct (index (bands ln1) k) as [l1|e1]; simpl; [|reflexivity].
  destruct (index (lanes g) b) as [ln2|e2]; simpl; reflexivity.
Qed.

Lemma truediv_zero (x y : Q) :
  (y == 0)%Q -> truediv x y = Raise ZeroDivisionError.
Proof.
  intros H. unfold truediv.
  apply Qeq_bool_iff in H. now rewrite H.
Qed.

Lemma truediv_nonzero (x y : Q) :
  ~ (y == 0)%Q -> truediv x y = Ok (x / y)%Q.
Proof.
  intros H. unfold truediv.
  destruct (Qeq_bool y 0) eqn:E; [|reflexivity].
  apply Qeq_bool_iff in E. contradiction.
Qed.

Lemma Qdiv_zero_iff (x y : Q) :
  ~ (y == 0)%Q -> ((x / y == 0)%Q <-> (x == 0)%Q).
Proof.
  intros Hy. split; intros H.
  - rewrite <- (Qmult_div_r x y Hy), H. apply Qmult_0_r.
  - unfold Qdiv. rewrite H. apply Qmult_0_l.
Qed.

(** The arithmetic of the [try] block on two total intensities. *)
Lemma compare_arith (t1 t2 : Q) :
  let r := (ratio ← truediv t1 t2;
            fold_change ← (if Qle_bool 1 ratio then Ok ratio
                           else truediv (- (1)) ratio);
            pd ← truediv (t1 - t2) t2;
            Ok {| lane1_intensity := t1; lane2_intensity := t2;
                  ratio := ratio; fold_change := fold_change;
                  percent_difference := (pd * (100 # 1))%Q |}) in
  ((t2 == 0)%Q \/ (t1 == 0)%Q -> r = Raise ZeroDivisionError) /\
  (~ ((t2 == 0)%Q \/ (t1 == 0)%Q) -> exists c, r = Ok c).
Proof.
  intros r. subst r.
  destruct (Qeq_dec t2 0) as [H2|H2].
  { rewrite (truediv_zero t1 t2 H2). simpl. split; [reflexivity|tauto]. }
  rewrite (truediv_nonzero t1 t2 H2). simpl mbind.
  destruct (Qeq_dec t1 0) as [H1|H1].
  - split; [intros _|tauto].
    assert (Hr : (t1 / t2 == 0)%Q) by (apply Qdiv_zero_iff; assumption).
    destruct (Qle_bool 1 (t1 / t2)) eqn:E.
    + apply Qle_bool_iff in E. rewrite Hr in E. exfalso. apply E. reflexivity.
    + rewrite (truediv_zero (- (1)) _ Hr). reflexivity.
  - split; [tauto|intros _].
    assert (Hr : ~ (t1 / t2 == 0)%Q) by (rewrite Qdiv_zero_iff; assumption).
    rewrite (truediv_nonzero (t1 - t2) t2 H2).
    destruct (Qle_bool 1 (t1 / t2)); simpl.
    + eauto.
    + rewrite (truediv_nonzero (- (1)) _ Hr). simpl. eauto.
Qed.

(** C5, counterexample: lane 1's band has total intensity 0 and lane
    0's band has total intensity 5; all indices are in range and the
    second lane's intensity is not zero, yet the result is an error. *)
Lemma compare_bands_zero_numerator_is_error :
  compare_bands sample_gel 1 0 0 sample_store = Ok (ErrorDict ZeroDivisionError) /\
  select_band sample_gel 1 0 = Ok 1%nat /\
  select_band sample_gel 0 0 = Ok 0%nat /\
  ~ (total_intensity (sample_store !!! 0%nat) == 0)%Q.
Proof.
  repeat split; try (vm_compute; reflexivity).
  vm_compute. discriminate.
Qed.

(** C5, as amended: [compare_bands] never lets an exception escape; it
    returns the error dictionary exactly when a lane or band index is
    out of range (in Python's sense) or the total intensity of either
    band is zero, and the comparison metrics in all other cases. *)
Theorem compare_bands_error_iff (g : gel) (lane1 lane2 band_index : Z) (s : store) :
  exists out,
    compare_bands g lane1 lane2 band_index s = Ok out /\
    ((exists e, out = ErrorDict e) <->
       comparison_undefined g s lane1 lane2 band_index) /\
    ((exists c, out = Compared c) <->
       ~ comparison_undefined g s lane1 lane2 band_index).
Proof.
  unfold compare_bands. rewrite compare_body_select.
  destruct (band_index_valid_dec g lane1 band_index) as [H1|H1].
  2:{ rewrite (select_band_invalid _ _ _ H1). simpl.
      exists (ErrorDict IndexError). split; [reflexivity|].
      assert (Hu : comparison_undefined g s lane1 lane2 band_index) by (left; exact H1).
      split; split; eauto.
      - intros [c Hc]. discriminate.
      - tauto. }
  destruct (band_index_valid_dec g lane2 band_index) as [H2|H2].
  2:{ destruct (select_band_valid _ _ _ H1) as [l1 Hl1]. rewrite Hl1.
      rewrite (select_band_invalid _ _ _ H2). simpl.
      exists (ErrorDict IndexError). split; [reflexivity|].
      assert (Hu : comparison_undefined g s lane1 lane2 band_index)
        by (right; left; exact H2).
      split; split; eauto.
      - intros [c Hc]. discriminate.
      - tauto. }
  destruct (select_band_valid _ _ _ H1) as [l1 Hl1].
  destruct (select_band_valid _ _ _ H2) as [l2 Hl2].
  rewrite Hl1, bind_Ok, Hl2, bind_Ok. cbv zeta.
  destruct (compare_arith (total_intensity (s !!! l1)) (total_intensity (s !!! l2)))
    as [Hzero Hnonzero].
  destruct (Qeq_dec (total_intensity (s !!! l2)) 0) as [Z2|Z2];
    [|destruct (Qeq_dec (total_intensity (s !!! l1)) 0) as [Z1|Z1]].
  1,2: (rewrite Hzero by tauto;
        exists (ErrorDict ZeroDivisionError); split; [reflexivity|];
        assert (Hu : comparison_undefined g s lane1 lane2 band_index)
          by (right; right; exists l1, l2; tauto);
        split; split; eauto; [intros [c Hc]; discriminate|tauto]).
  destruct Hnonzero as [c Hc]; [tauto|]. rewrite Hc.
  exists (Compared c). split; [reflexivity|].
  assert (Hd : ~ comparison_undefined g s lane1 lane2 band_index).
  { intros [Hu|[Hu|(l1' & l2' & E1 & E2 & Hu)]]; [tauto|tauto|].
    rewrite Hl1 in E1. rewrite Hl2 in E2.
    injection E1 as <-. injection E2 as <-. tauto. }
  split; split; eauto.
  - intros [e He]. discriminate.
  - tauto.
Qed.

(** C6, counterexample: lane 1 and band 0 are valid indices, the band's
    total intensity is 0, and comparing the band with itself gives an
    error instead of ratio 1. *)
Lemma compare_bands_same_band_zero_intensity :
  select_band sample_gel 1 0 = Ok 1%nat /\
  compare_bands sample_gel 1 1 0 sample_store = Ok (ErrorDict ZeroDivisionError).
Proof. split; vm_compute; reflexivity. Qed.

(** C6, as amended: for a valid lane index and a valid band index,
    comparing the band with itself gives ratio 1, fold change 1 and
    percent difference 0 when the band's total intensity is not zero,
    and the structured error when it is zero. *)
Theorem compare_bands_same_lane (g : gel) (a band_index : Z) (l : loc) (s : store) :
  select_band g a band_index = Ok l ->
  (~ (total_intensity (s !!! l) == 0)%Q ->
   exists c,
     compare_bands g a a band_index s = Ok (Compared c) /\
     (ratio c == 1)%Q /\ (fold_change c == 1)%Q /\ (percent_difference c == 0)%Q) /\
  ((total_intensity (s !!! l) == 0)%Q ->
   compare_bands g a a band_index s = Ok (ErrorDict ZeroDivisionError)).
Proof.
  intros Hl. unfold compare_bands. rewrite compare_body_select, Hl.
  rewrite !bind_Ok. cbv zeta.
  set (t := total_intensity (s !!! l)) in *.
  split; intros Ht.
  - assert (Hr : (t / t == 1)%Q) by (apply Qmult_inv_r, Ht).
    rewrite (truediv_nonzero t t Ht), bind_Ok.
    assert (Hle : Qle_bool 1 (t / t) = true).
    { apply Qle_bool_iff. rewrite Hr. apply Qle_refl. }
    rewrite Hle, bind_Ok.
    rewrite (truediv_nonzero (t - t) t Ht). simpl.
    eexists. split; [reflexivity|]. simpl. repeat split; try exact Hr.
    unfold Qdiv, Qminus. rewrite Qplus_opp_r. reflexivity.
  - rewrite (truediv_zero t t Ht). reflexivity.
Qed.

Lemma compare_bands_same_lane_witness :
  (exists c,
     compare_bands sample_gel 0 0 0 sample_store = Ok (Compared c) /\
     (ratio c == 1)%Q /\ (fold_change c == 1)%Q /\ (percent_difference c == 0)%Q) /\
  compare_bands sample_gel 1 1 0 sample_store = Ok (ErrorDict ZeroDivisionError).
Proof.
  split.
  - apply (compare_bands_same_lane sample_gel 0 0 0%nat sample_store).
    + reflexivity.
    + vm_compute. discriminate.
  - apply (compare_bands_same_lane sample_gel 1 0 1%nat sample_store).
    + reflexivity.
    + vm_compute. reflexivity.
Defined.

(** ** Image inversion *)

Lemma invert_twice_row (r : list Q) :
  Forall2 Qeq (map (fun v => ((255 # 1) - v)%Q) (map (fun v => ((255 # 1) - v)%Q) r)) r.
Proof.
  induction r as [|v r IH]; simpl; constructor; [|exact IH]. ring.
Qed.

(** X1: inverting a gel image twice gives back the image (same shape,
    numerically equal samples), and inversion maps 8-bit grey levels to
    8-bit grey levels. *)
Theorem invert_gel_involutive (image : ndarray2) :
  same_samples (invert_gel (invert_gel image)) image /\
  (grey_levels image -> grey_levels (invert_gel image)) /\
  nrows (invert_gel image) = nrows image /\
  (wf_ndarray2 image -> wf_ndarray2 (invert_gel image)).
Proof.
  split; [|split; [|split]].
  - split; [reflexivity|]. unfold invert_gel. simpl.
    induction (rows image) as [|r rs IH]; simpl; constructor;
      [apply invert_twice_row|exact IH].
  - unfold grey_levels, invert_gel. simpl. intros H.
    induction H as [|r rs Hr _ IH]; simpl; constructor; [|exact IH].
    induction Hr as [|v vs [Hlo Hhi] _ IHv]; simpl; constructor; [|exact IHv].
    split.
    + apply (Qplus_le_l _ _ v). ring_simplify. exact Hhi.
    + apply (Qplus_le_l _ _ v). ring_simplify.
      apply (Qplus_le_r _ _ (255 # 1)) in Hlo. ring_simplify in Hlo. exact Hlo.
  - unfold nrows, invert_gel. simpl. apply length_map.
  - unfold wf_ndarray2, invert_gel. simpl. intros H.
    induction H as [|r rs Hr _ IH]; simpl; constructor; [|exact IH].
    now rewrite length_map.
Qed.

Lemma invert_gel_involutive_witness :
  grey_levels (invert_gel small_image) /\
  same_samples (invert_gel (invert_gel small_image)) small_image.
Proof.
  assert (Hg : grey_levels small_image).
  { unfold grey_levels, small_image. simpl.
    repeat (constructor; try (split; discriminate)). }
  destruct (invert_gel_involutive small_image) as (Hs & Hgrey & _ & _).
  split; [exact (Hgrey Hg)|exact Hs].
Defined.

(** ** Lane segmenter: the three ways it builds its result *)

Lemma detect_lanes_value sg ps (image : ndarray2) (N : option Z) :
  (51 <= ncols image)%nat ->
  distance_ok (Z.of_nat (ncols image)) N ->
  let width := Z.of_nat (ncols image) in
  let peaks := separators sg ps image N in
  detect_lanes sg ps image N "projection"
  = Ok (if (0 <? length peaks)%nat then consecutive ([0] ++ peaks ++ [width])
        else if truthy N then equal_lanes (width / default 0 N) (default 0 N)
        else [(0, width)]).
Proof.
  intros Hw Hd width peaks. subst peaks. unfold separators, requested_distance.
  unfold detect_lanes. simpl String.eqb. cbv iota.
  rewrite savgol_filter_wide by (rewrite ?length_sum_axis0; lia).
  rewrite bind_Ok. fold width.
  destruct N as [n|]; simpl truthy; simpl default.
  - destruct (Z.eqb_spec n 0) as [->|Hn0]; simpl negb; cbv iota.
    + rewrite bind_Ok, find_peaks_accepts by lia. rewrite bind_Ok.
      case_peaks; reflexivity.
    + destruct Hd as [Hd|[Hz Hd]]; [contradiction|].
      rewrite (floordiv_nonzero _ (n + 1)) by exact Hz.
      rewrite bind_Ok, find_peaks_accepts by exact Hd. rewrite bind_Ok.
      rewrite (floordiv_nonzero _ n) by exact Hn0.
      case_peaks; reflexivity.
  - cbv iota. rewrite bind_Ok, find_peaks_accepts by lia. rewrite bind_Ok.
    case_peaks; reflexivity.
Qed.

Lemma length_consecutive (b0 : Z) (bs : list Z) :
  length (consecutive (b0 :: bs)) = length bs.
Proof.
  revert b0. induction bs as [|b1 bs IH]; intros b0; [reflexivity|].
  change (consecutive (b0 :: b1 :: bs)) with ((b0, b1) :: consecutive (b1 :: bs)).
  cbn [length]. now rewrite IH.
Qed.

(** X2: when separators are found and they do not decrease within
    [0, width], the lanes returned are one more than the separators, they
    abut from column 0 to column [width], and a column lies in a lane
    exactly when it is a column of the image. *)
Theorem detect_lanes_separators_tile sg ps (image : ndarray2) (N : option Z) :
  (51 <= ncols image)%nat ->
  distance_ok (Z.of_nat (ncols image)) N ->
  separators sg ps image N <> [] ->
  nondecreasing_from 0 (separators sg ps image N ++ [Z.of_nat (ncols image)]) ->
  exists ls,
    detect_lanes sg ps image N "projection" = Ok ls /\
    length ls = S (length (separators sg ps image N)) /\
    tiles 0 (Z.of_nat (ncols image)) ls /\
    forall c, covered ls c <-> 0 <= c < Z.of_nat (ncols image).
Proof.
  intros Hw Hd Hne Hnd.
  rewrite (detect_lanes_value sg ps image N Hw Hd). cbv zeta.
  destruct (separators sg ps image N) as [|p peaks] eqn:E; [contradiction|].
  cbn [length Nat.ltb Nat.leb].
  eexists. split; [reflexivity|].
  assert (Ht : tiles 0 (Z.of_nat (ncols image))
                 (consecutive ([0] ++ (p :: peaks) ++ [Z.of_nat (ncols image)]))).
  { apply (consecutive_tiles 0 (p :: peaks)). exact Hnd. }
  split; [|split].
  - change ([0] ++ (p :: peaks) ++ [Z.of_nat (ncols image)])
      with (0 :: (p :: peaks) ++ [Z.of_nat (ncols image)]).
    rewrite length_consecutive, length_app. simpl. lia.
  - exact Ht.
  - intros c. apply tiles_covered, Ht.
Qed.

Lemma detect_lanes_separators_tile_witness :
  detect_lanes flat_smooth peak_at_50 (zero_image 100) None "projection"
  = Ok [(0, 50); (50, 100)].
Proof.
  destruct (detect_lanes_separators_tile flat_smooth peak_at_50
              (zero_image 100) None) as (ls & Hls & _).
  - simpl. lia.
  - exact I.
  - discriminate.
  - simpl. lia.
  - rewrite Hls. f_equal.
    assert (H : detect_lanes flat_smooth peak_at_50 (zero_image 100) None "projection"
                = Ok [(0, 50); (50, 100)]) by reflexivity.
    rewrite Hls in H. now injection H.
Defined.

Lemma length_range (n : Z) : length (range n) = Z.to_nat n.
Proof. unfold range. now rewrite length_map, length_seq. Qed.

(** X3: when a lane count [n > 0] is given and no separator is found,
    exactly [n] lanes are returned, each [width // n >= 1] columns wide;
    together they cover the columns below [n * (width // n)] and no
    other, so the last [width mod n] columns are in no lane. *)
Theorem detect_lanes_equal_division sg ps (image : ndarray2) (n : Z) :
  (51 <= ncols image)%nat ->
  0 < n ->
  1 <= Z.of_nat (ncols image) / (n + 1) ->
  separators sg ps image (Some n) = [] ->
  let width := Z.of_nat (ncols image) in
  exists ls,
    detect_lanes sg ps image (Some n) "projection" = Ok ls /\
    length ls = Z.to_nat n /\
    1 <= width / n /\
    (forall l, In l ls -> snd l - fst l = width / n) /\
    (forall c, covered ls c <-> 0 <= c < width - width mod n).
Proof.
  intros Hw Hn Hd Hnone width.
  rewrite (detect_lanes_value sg ps image (Some n) Hw)
    by (right; split; [lia|exact Hd]).
  cbv zeta. rewrite Hnone. cbn [length Nat.ltb Nat.leb].
  simpl truthy. destruct (Z.eqb_spec n 0); [lia|]. simpl negb. cbv iota.
  simpl default. fold width.
  assert (Hq : 1 <= width / n).
  { apply Z.div_le_lower_bound; [lia|].
    assert (n + 1 <= width); [|lia].
    destruct (Z_lt_le_dec width (n + 1)) as [Hlt|Hge]; [|exact Hge].
    rewrite Z.div_small in Hd by (subst width; lia). lia. }
  eexists. split; [reflexivity|]. split; [|split; [exact Hq|split]].
  - unfold equal_lanes. now rewrite length_map, length_range.
  - intros l Hl. unfold equal_lanes in Hl.
    apply in_map_iff in Hl as (i & <- & _). simpl. lia.
  - intros c.
    rewrite (tiles_covered _ 0 (n * (width / n)))
      by (apply equal_lanes_tiles; lia).
    rewrite (Z.mod_eq width n) by lia. lia.
Qed.

Lemma detect_lanes_equal_division_witness :
  exists ls,
    detect_lanes flat_smooth no_peaks (zero_image 100) (Some 4) "projection" = Ok ls /\
    length ls = 4%nat /\
    (forall c, covered ls c <-> 0 <= c < 100).
Proof.
  destruct (detect_lanes_equal_division flat_smooth no_peaks (zero_image 100) 4)
    as (ls & Hls & Hlen & _ & _ & Hcov).
  - simpl. lia.
  - lia.
  - vm_compute. discriminate.
  - reflexivity.
  - exists ls. split; [exact Hls|]. split; [exact Hlen|exact Hcov].
Defined.

(** X4: with no lane count (or a lane count of 0) and no separator
    found, the result is the single lane [(0, width)]. *)
Theorem detect_lanes_single_lane sg ps (image : ndarray2) (N : option Z) :
  (51 <= ncols image)%nat ->
  truthy N = false ->
  separators sg ps image N = [] ->
  detect_lanes sg ps image N "projection" = Ok [(0, Z.of_nat (ncols image))].
Proof.
  intros Hw HN Hnone.
  assert (Hd : distance_ok (Z.of_nat (ncols image)) N).
  { destruct N as [n|]; [|exact I]. left. simpl in HN.
    destruct (Z.eqb_spec n 0); [assumption|discriminate]. }
  rewrite (detect_lanes_value sg ps image N Hw Hd). cbv zeta.
  rewrite Hnone, HN. reflexivity.
Qed.

Lemma detect_lanes_single_lane_witness :
  detect_lanes flat_smooth no_peaks (zero_image 60) (Some 0) "projection"
  = Ok [(0, 60)].
Proof.
  apply (detect_lanes_single_lane flat_smooth no_peaks (zero_image 60) (Some 0)).
  - simpl. lia.
  - reflexivity.
  - reflexivity.
Defined.

(** ** Lane extraction *)

Lemma nth_map_in_range {A B} (f : A -> B) (l : list A) (n : nat) (d : A) (d' : B) :
  (n < length l)%nat -> nth n (map f l) d' = f (nth n l d).
Proof.
  intros H. rewrite (nth_indep _ d' (f d)) by (rewrite length_map; exact H).
  apply map_nth.
Qed.

(** X6: for column bounds [0 <= a <= b <= width], the extracted lane has
    [b - a] columns and the rows of the image, is rectangular, and its
    sample [(i, j)] is sample [(i, a + j)] of the image. *)
Theorem extract_lane_samples (image : ndarray2) (a b : Z) :
  wf_ndarray2 image ->
  0 <= a <= b ->
  b <= Z.of_nat (ncols image) ->
  let lane_img := extract_lane image (a, b) in
  ncols lane_img = Z.to_nat (b - a) /\
  nrows lane_img = nrows image /\
  wf_ndarray2 lane_img /\
  forall i j, (i < nrows image)%nat -> (j < Z.to_nat (b - a))%nat ->
    sample lane_img i j = sample image i (Z.to_nat a + j).
Proof.
  intros Hwf Hab Hb lane_img. subst lane_img. unfold extract_lane.
  assert (Hcols : length (slice (seq 0 (ncols image)) a b) = Z.to_nat (b - a)).
  { rewrite (slice_as_nth 0%nat) by (rewrite ?length_seq; lia).
    now rewrite length_map, length_seq. }
  assert (Hrow : forall r, In r (rows image) ->
            slice r a b = map (fun k => nth k r 0%Q)
                              (seq (Z.to_nat a) (Z.to_nat (b - a)))).
  { intros r Hr. apply slice_as_nth; [exact Hab|].
    unfold wf_ndarray2 in Hwf. rewrite List.Forall_forall in Hwf.
    rewrite (Hwf r Hr). exact Hb. }
  split; [exact Hcols|]. split; [unfold nrows; simpl; apply length_map|]. split.
  - unfold wf_ndarray2. simpl. rewrite Hcols.
    apply List.Forall_forall. intros r' Hr'.
    apply in_map_iff in Hr' as (r & <- & Hr).
    rewrite (Hrow r Hr). now rewrite length_map, length_seq.
  - intros i j Hi Hj. unfold sample, nrows in *. simpl.
    rewrite (nth_map_in_range _ _ _ [] []) by exact Hi.
    rewrite (Hrow (nth i (rows image) [])) by (apply nth_In; exact Hi).
    rewrite (nth_map_in_range _ _ _ 0%nat 0%Q) by (rewrite length_seq; exact Hj).
    now rewrite seq_nth by exact Hj.
Qed.

Lemma extract_lane_samples_witness :
  ncols (extract_lane small_image (1, 3)) = 2%nat /\
  sample (extract_lane small_image (1, 3)) 1 0 = sample small_image 1 1.
Proof.
  assert (Hwf : wf_ndarray2 small_image) by (repeat constructor).
  destruct (extract_lane_samples small_image 1 3 Hwf) as (Hc & _ & _ & Hs).
  - lia.
  - simpl. lia.
  - split; [exact Hc|]. apply (Hs 1%nat 0%nat); unfold nrows; simpl; lia.
Defined.

(** ** Band detector: one band per peak *)

Lemma bands_of_peaks_follow (smoothed : list Q) (found : list (nat * Q)) :
  forall bs, bands_of_peaks smoothed found = Ok bs ->
  map db_position bs = map (fun q => Z.of_nat (fst q)) found /\
  map db_prominence bs = map snd found /\
  Forall (fun b => db_width b = 0%Q /\
                   index smoothed (db_position b) = Ok (db_intensity b)) bs.
Proof.
  induction found as [|[peak prom] rest IH]; intros bs H; simpl in H.
  - injection H as <-. repeat split; constructor.
  - destruct (index smoothed (Z.of_nat peak)) as [v|e] eqn:Ev; simpl in H; [|discriminate].
    destruct (bands_of_peaks smoothed rest) as [bs'|e]; simpl in H; [|discriminate].
    injection H as <-. destruct (IH bs' eq_refl) as (Hp & Hpr & Hall).
    simpl. rewrite Hp, Hpr. repeat split. constructor; [|exact Hall].
    simpl. split; [reflexivity|exact Ev].
Qed.

(** X7: when [detect_bands] returns, its bands are the peaks the peak
    finder reported on the smoothed row profile, one band per peak and in
    the same order: the positions are the peak positions, the
    prominences the reported ones, each intensity is the smoothed
    profile at the peak, and each width is 0. *)
Theorem detect_bands_follow_peaks sg ps std (lane_image : ndarray2) (d : Z)
    (bs : list detected_band) :
  detect_bands sg ps std lane_image d = Ok bs ->
  let smoothed := sg (mean_axis1 lane_image) 11%nat 2%nat in
  let found := ps smoothed d (Some (std smoothed * (1 # 2))%Q) in
  map db_position bs = map (fun q => Z.of_nat (fst q)) found /\
  map db_prominence bs = map snd found /\
  Forall (fun b => db_width b = 0%Q /\
                   index smoothed (db_position b) = Ok (db_intensity b)) bs.
Proof.
  intros H smoothed found. unfold detect_bands in H.
  destruct (Nat.lt_ge_cases (nrows lane_image) 11) as [Hn|Hw].
  { rewrite savgol_filter_narrow in H by (rewrite length_mean_axis1; exact Hn).
    discriminate. }
  rewrite savgol_filter_wide in H by (rewrite ?length_mean_axis1; lia).
  rewrite bind_Ok in H.
  destruct (Z_lt_le_dec d 1) as [Hd|Hd].
  { rewrite find_peaks_rejects in H by exact Hd. discriminate. }
  rewrite find_peaks_accepts, bind_Ok in H by exact Hd.
  apply bands_of_peaks_follow, H.
Qed.

Lemma detect_bands_follow_peaks_witness :
  exists bs,
    detect_bands flat_smooth peak_at_50 flat_std (zero_lane 60) 20 = Ok bs /\
    map db_position bs = [50].
Proof.
  eexists. split; [reflexivity|].
  apply (detect_bands_follow_peaks flat_smooth peak_at_50 flat_std (zero_lane 60) 20).
  reflexivity.
Defined.

(** ** Band quantifier: relations between the metrics, and the edges *)

Lemma In_slice {A} (l : list A) (a b : Z) (x : A) : In x (slice l a b) -> In x l.
Proof.
  unfold slice. intros H.
  set (j := Z.to_nat (slice_bound (Z.of_nat (length l)) a)) in *.
  set (k := Z.to_nat (slice_bound (Z.of_nat (length l)) b
                      - slice_bound (Z.of_nat (length l)) a)) in *.
  rewrite <- (firstn_skipn j l). apply in_or_app. right.
  rewrite <- (firstn_skipn k (skipn j l)). apply in_or_app. left. exact H.
Qed.

Lemma length_concat_uniform {A} (n : nat) (ls : list (list A)) :
  Forall (fun r => length r = n) ls ->
  length (concat ls) = (length ls * n)%nat.
Proof.
  induction 1 as [|r rs Hr _ IH]; simpl; [reflexivity|].
  rewrite length_app, Hr, IH. reflexivity.
Qed.

Lemma fold_Qplus_le (l : list Q) (acc M : Q) :
  (forall y, In y l -> (y <= M)%Q) ->
  (fold_left Qplus l acc <= acc + inject_Z (Z.of_nat (length l)) * M)%Q.
Proof.
  revert acc. induction l as [|x l IH]; intros acc H; simpl fold_left.
  - simpl. ring_simplify. apply Qle_refl.
  - eapply Qle_trans; [apply IH; intros y Hy; apply H; now right|].
    assert (Hx : (x <= M)%Q) by (apply H; now left).
    replace (Z.of_nat (length (x :: l))) with (Z.of_nat (length l) + 1)
      by (simpl length; lia).
    rewrite inject_Z_plus, Qmult_plus_distr_l.
    change (inject_Z 1) with 1%Q.
    generalize (inject_Z (Z.of_nat (length l)) * M)%Q. intros t. lra.
Qed.

(** X8: for a rectangular lane, whatever the position and width asked,
    the metrics [quantify_band] returns are those of a non-empty list of
    samples of the lane: [area] is their number, [total_intensity] and
    [volume] are both their sum, [max_intensity] is the largest of them
    and, in exact arithmetic, [mean_intensity] is at most
    [max_intensity]; [position] and [width] are the ones asked. *)
Theorem quantify_band_metrics (lane_image : ndarray2) (p : Z)
    (band_width : option Q) (m : metrics) :
  wf_ndarray2 lane_image ->
  quantify_band lane_image p band_width = Ok m ->
  m_position m = p /\
  m_width m = default (20 # 1)%Q band_width /\
  m_volume m = m_total_intensity m /\
  exists region : list Q,
    region <> [] /\
    (forall v, In v region -> exists r, In r (rows lane_image) /\ In v r) /\
    m_area m = Z.of_nat (length region) /\
    m_total_intensity m = Qsum region /\
    is_max_of (m_max_intensity m) region /\
    (m_mean_intensity m <= m_max_intensity m)%Q.
Proof.
  intros Hwf H. unfold quantify_band in H.
  set (bw := default (20 # 1)%Q band_width) in *.
  set (region := slice (rows lane_image)
                   (Z.max 0 (int (inject_Z p - bw / (2 # 1))%Q))
                   (Z.min (Z.of_nat (nrows lane_image))
                      (int (inject_Z p + bw / (2 # 1))%Q))) in *.
  assert (Hreg : Forall (fun r => length r = ncols lane_image) region).
  { apply List.Forall_forall. intros r Hr. apply In_slice in Hr.
    unfold wf_ndarray2 in Hwf. rewrite List.Forall_forall in Hwf. auto. }
  pose proof (length_concat_uniform _ _ Hreg) as Hlen.
  assert (Hsamples : forall v, In v (concat region) ->
            exists r, In r (rows lane_image) /\ In v r).
  { intros v Hv. apply in_concat in Hv as (r & Hr & Hv).
    exists r. split; [eapply In_slice, Hr|exact Hv]. }
  destruct (concat region) as [|x xs] eqn:E; [discriminate|].
  injection H as <-. simpl.
  assert (Hsize : Z.of_nat (length region) * Z.of_nat (ncols lane_image)
                  = Z.of_nat (length (x :: xs))) by (rewrite Hlen; lia).
  rewrite Hsize.
  assert (Hpos : 0 < Z.of_nat (length (x :: xs))) by (simpl length; lia).
  assert (Hq : (0 < inject_Z (Z.of_nat (length (x :: xs))))%Q).
  { change 0%Q with (inject_Z 0). rewrite <- Zlt_Qlt. exact Hpos. }
  split; [reflexivity|]. split; [reflexivity|]. split; [reflexivity|].
  exists (x :: xs). split; [discriminate|]. split; [exact Hsamples|].
  split; [reflexivity|]. split; [reflexivity|].
  split; [apply Qmax_list_is_max|].
  apply Qle_shift_div_r; [exact Hq|].
  destruct (Qmax_list_is_max x xs) as [_ Hub].
  eapply Qle_trans; [unfold Qsum; apply (fold_Qplus_le _ _ _ Hub)|].
  ring_simplify. rewrite Qmult_comm. apply Qle_refl.
Qed.

Lemma quantify_band_metrics_witness :
  exists m,
    quantify_band small_lane 1 None = Ok m /\
    m_volume m = m_total_intensity m /\
    m_area m = 6.
Proof.
  assert (Hwf : wf_ndarray2 small_lane) by (repeat constructor).
  eexists. split; [reflexivity|].
  destruct (quantify_band_metrics small_lane 1 None _ Hwf eq_refl)
    as (_ & _ & Hv & _).
  split; [exact Hv|reflexivity].
Defined.

Lemma slice_empty {A} (l : list A) (a b : Z) :
  slice_bound (Z.of_nat (length l)) b <= slice_bound (Z.of_nat (length l)) a ->
  slice l a b = [].
Proof.
  intros H. unfold slice.
  replace (Z.to_nat (slice_bound (Z.of_nat (length l)) b
                     - slice_bound (Z.of_nat (length l)) a)) with 0%nat by lia.
  reflexivity.
Qed.

(** X9: a band position of at least [height + 10], or of at most
    [-(height + 10)], leaves an empty region, and [quantify_band] (width
    20) raises [ValueError]. *)
Theorem quantify_band_outside_raises (lane_image : ndarray2) (p : Z) :
  Z.of_nat (nrows lane_image) + 10 <= p \/ p <= - (Z.of_nat (nrows lane_image) + 10) ->
  quantify_band lane_image p None = Raise ValueError.
Proof.
  intros Hp. unfold quantify_band. simpl default.
  rewrite int_minus_half_width, int_plus_half_width.
  rewrite slice_empty; [reflexivity|].
  unfold nrows in *. set (h := Z.of_nat (length (rows lane_image))) in *.
  assert (Hh : 0 <= h) by (subst h; lia).
  unfold slice_bound.
  destruct (Z.ltb_spec (Z.min h (p + 10)) 0);
    destruct (Z.ltb_spec (Z.max 0 (p - 10)) 0); lia.
Qed.

Lemma quantify_band_outside_raises_witness :
  quantify_band small_lane 13 None = Raise ValueError /\
  quantify_band small_lane (-13) None = Raise ValueError.
Proof.
  split; apply quantify_band_outside_raises; unfold nrows; simpl; lia.
Defined.

(** X10: a band position above the lane, with
    [-(height + 10) < p < -10], is not rejected: the stop row [p + 10] is
    negative and counts from the end, so the metrics are those of rows
    [0] to [height + p + 10]. *)
Theorem quantify_band_negative_position_wraps (lane_image : ndarray2) (p : Z) :
  wf_ndarray2 lane_image ->
  (1 <= ncols lane_image)%nat ->
  - (Z.of_nat (nrows lane_image) + 10) < p < -10 ->
  let h := Z.of_nat (nrows lane_image) in
  let region := concat (region_rows lane_image 0 (h + p + 10)) in
  exists m,
    quantify_band lane_image p None = Ok m /\
    m_area m = (h + p + 10) * Z.of_nat (ncols lane_image) /\
    m_total_intensity m = Qsum region /\
    is_max_of (m_max_intensity m) region.
Proof.
  intros Hwf Hcols Hp h region.
  unfold quantify_band. simpl default.
  rewrite int_minus_half_width, int_plus_half_width. fold h.
  assert (Hslice : slice (rows lane_image) (Z.max 0 (p - 10)) (Z.min h (p + 10))
                   = region_rows lane_image 0 (h + p + 10)).
  { unfold slice, slice_bound, region_rows. fold (nrows lane_image). fold h.
    destruct (Z.ltb_spec (Z.max 0 (p - 10)) 0); [lia|].
    destruct (Z.ltb_spec (Z.min h (p + 10)) 0); [|lia].
    replace (Z.min (Z.max 0 (p - 10)) h) with 0 by lia.
    replace (Z.max 0 (Z.min h (p + 10) + h) - 0) with (h + p + 10) by lia.
    rewrite Z.sub_0_r. simpl skipn.
    apply firstn_as_nth. unfold nrows in h. subst h. lia. }
  rewrite Hslice, region_rows_length.
  destruct (concat_nonempty (ncols lane_image)
              (region_rows lane_image 0 (h + p + 10))) as (x & xs & Hreg).
  - exact Hcols.
  - rewrite region_rows_length. lia.
  - apply region_rows_width; [exact Hwf|lia|subst h; lia].
  - subst region. rewrite Hreg. eexists. split; [reflexivity|]. simpl.
    repeat split; try apply Qmax_list_is_max.
    f_equal. lia.
Qed.

Lemma quantify_band_negative_position_wraps_witness :
  exists m,
    quantify_band small_lane (-11) None = Ok m /\
    m_area m = 4 /\ m_total_intensity m = (10 # 1)%Q.
Proof.
  assert (Hwf : wf_ndarray2 small_lane) by (repeat constructor).
  destruct (quantify_band_negative_position_wraps small_lane (-11) Hwf)
    as (m & Hm & Ha & Ht & _).
  - simpl. lia.
  - unfold nrows. simpl. lia.
  - exists m. split; [exact Hm|]. split; [rewrite Ha|rewrite Ht]; reflexivity.
Defined.

(** ** Pipeline orchestrator: the shape of a result *)

Lemma analyze_lanes_structure sg ps std (image : ndarray2) (lb : list (Z * Z)) :
  forall (i : Z) (s : store) (ls : list lane) (s' : store),
  analyze_lanes sg ps std image lb i s = Ok (ls, s') ->
  length ls = length lb /\
  forall k ln, nth_error ls k = Some ln ->
    lane_number ln = i + Z.of_nat k + 1 /\
    nth_error lb k = Some (bounds ln) /\
    num_bands ln = Z.of_nat (length (bands ln)).
Proof.
  induction lb as [|bnds rest IH]; intros i s ls s' H; simpl in H.
  - injection H as <- <-. split; [reflexivity|]. intros [|k] ln Hk; discriminate.
  - destruct (detect_bands sg ps std (extract_lane image bnds) 20) as [found|e];
      simpl in H; [|discriminate].
    destruct (quantify_bands (extract_lane image bnds) found s)
      as [[qb s1]|e]; simpl in H; [|discriminate].
    destruct (analyze_lanes sg ps std image rest (i + 1) s1)
      as [[ls2 s2]|e] eqn:Ea; simpl in H; [|discriminate].
    injection H as <- <-.
    destruct (IH _ _ _ _ Ea) as [Hlen Hnth].
    split; [simpl; now rewrite Hlen|].
    intros [|k] ln Hk; simpl in Hk.
    + injection Hk as <-. simpl. repeat split. lia.
    + destruct (Hnth k ln Hk) as (Hn & Hb & Hc).
      repeat split; [lia|exact Hb|exact Hc].
Qed.

(** X11: a result of [analyze_gel] has one lane record per lane
    boundary, in the order of the boundaries and numbered from 1; no lane
    is dropped, whether or not it has bands, and [num_lanes] and
    [num_bands] are the lengths of the lists they go with. *)
Theorem analyze_gel_one_lane_per_boundary sg ps std (image : ndarray2)
    (N : option Z) (lane_bounds : option (list (Z * Z)))
    (s : store) (g : gel) (s' : store) :
  analyze_gel sg ps std image N lane_bounds s = Ok (g, s') ->
  exists lb,
    match lane_bounds with
    | Some given => lb = given
    | None => detect_lanes sg ps image N "projection" = Ok lb
    end /\
    num_lanes g = Z.of_nat (length lb) /\
    length (lanes g) = length lb /\
    forall k ln, nth_error (lanes g) k = Some ln ->
      lane_number ln = Z.of_nat k + 1 /\
      nth_error lb k = Some (bounds ln) /\
      num_bands ln = Z.of_nat (length (bands ln)).
Proof.
  unfold analyze_gel. intros H.
  destruct (match lane_bounds with
            | Some lb => Ok lb
            | None => detect_lanes sg ps image N "projection"
            end) as [lb|e] eqn:El; simpl in H; [|discriminate].
  destruct (analyze_lanes sg ps std image lb 0 s) as [[ls s2]|e] eqn:Ea;
    simpl in H; [|discriminate].
  injection H as <- <-. exists lb.
  destruct (analyze_lanes_structure _ _ _ _ _ _ _ _ _ Ea) as [Hlen Hnth].
  split; [destruct lane_bounds; [now injection El|exact El]|].
  split; [reflexivity|]. split; [exact Hlen|].
  intros k ln Hk. destruct (Hnth k ln Hk) as (Hn & Hb & Hc).
  repeat split; [lia|exact Hb|exact Hc].
Qed.

Lemma analyze_gel_one_lane_per_boundary_witness :
  exists g s',
    analyze_gel flat_smooth peak_at_50 flat_std (zero_lane 60) None
      (Some [(0, 1)]) ∅ = Ok (g, s') /\
    length (lanes g) = 1%nat.
Proof.
  destruct (analyze_gel flat_smooth peak_at_50 flat_std (zero_lane 60) None
              (Some [(0, 1)]) ∅) as [[g s']|e] eqn:E.
  - exists g, s'. split; [reflexivity|].
    destruct (analyze_gel_one_lane_per_boundary _ _ _ _ _ _ _ _ _ E)
      as (lb & Hlb & _ & Hlen & _).
    subst lb. exact Hlen.
  - vm_compute in E. discriminate.
Defined.

(** ** Pipeline orchestrator: the band records of a result *)

(** What [analyze_gel] leaves in a band record it creates. *)
Lemma quantify_band_default_fields (lane_img : ndarray2) (p : Z) (m : metrics) :
  quantify_band lane_img p None = Ok m ->
  m_position m = p /\ m_width m = (20 # 1)%Q /\ m_volume m = m_total_intensity m.
Proof.
  unfold quantify_band. intros H.
  destruct (concat _) as [|x xs]; [discriminate|].
  injection H as <-. repeat split.
Qed.

Lemma quantify_bands_records (lane_img : ndarray2) (found : list detected_band) :
  forall (s : store) (ls : list loc) (s' : store),
  quantify_bands lane_img found s = Ok (ls, s') ->
  (forall l, l ∈ dom s -> s' !! l = s !! l) /\
  (forall l, l ∈ ls ->
     exists b, s' !! l = Some b /\
       normalized_intensity b = None /\ width b = (20 # 1)%Q /\
       volume b = total_intensity b).
Proof.
  induction found as [|d rest IH]; intros s ls s' H; simpl in H.
  - injection H as <- <-. split; [done|]. intros l Hl. inversion Hl.
  - destruct (quantify_band lane_img (db_position d) None) as [m|e] eqn:Em;
      simpl in H; [|discriminate].
    destruct (quantify_bands lane_img rest
                (<[fresh (dom s) := update_band d m]> s))
      as [[ls2 s2]|e] eqn:E; simpl in H; [|discriminate].
    injection H as <- <-.
    destruct (IH _ _ _ E) as (Hframe & Hrec).
    pose proof (is_fresh (dom s)) as Hfresh.
    split.
    + intros l Hl. rewrite Hframe by (rewrite dom_insert_L; set_solver).
      apply lookup_insert_ne. intros <-. contradiction.
    + intros l Hl. apply elem_of_cons in Hl as [->|Hl]; [|apply Hrec, Hl].
      exists (update_band d m). split.
      * rewrite Hframe by (rewrite dom_insert_L; set_solver).
        apply lookup_insert_eq.
      * destruct (quantify_band_default_fields _ _ _ Em) as (_ & Hw & Hv).
        simpl. repeat split; assumption.
Qed.

Lemma analyze_lanes_records sg ps std (image : ndarray2) (lb : list (Z * Z)) :
  forall (i : Z) (s : store) (ls : list lane) (s' : store),
  analyze_lanes sg ps std image lb i s = Ok (ls, s') ->
  (forall l, l ∈ dom s -> s' !! l = s !! l) /\
  (forall l, l ∈ concat (map bands ls) ->
     exists b, s' !! l = Some b /\
       normalized_intensity b = None /\ width b = (20 # 1)%Q /\
       volume b = total_intensity b).
Proof.
  induction lb as [|bnds rest IH]; intros i s ls s' H; simpl in H.
  - injection H as <- <-. split; [done|]. intros l Hl. inversion Hl.
  - destruct (detect_bands sg ps std (extract_lane image bnds) 20) as [found|e];
      simpl in H; [|discriminate].
    destruct (quantify_bands (extract_lane image bnds) found s)
      as [[qb s1]|e] eqn:Eq; simpl in H; [|discriminate].
    destruct (analyze_lanes sg ps std image rest (i + 1) s1)
      as [[ls2 s2]|e] eqn:Ea; simpl in H; [|discriminate].
    injection H as <- <-. simpl.
    destruct (quantify_bands_records _ _ _ _ _ Eq) as (Hf1 & Hr1).
    destruct (quantify_bands_alloc _ _ _ _ _ Eq) as (_ & Hin1 & Hsub1).
    destruct (IH _ _ _ _ Ea) as (Hf2 & Hr2).
    split.
    + intros l Hl. rewrite Hf2 by set_solver. apply Hf1, Hl.
    + intros l Hl. apply elem_of_app in Hl as [Hl|Hl]; [|apply Hr2, Hl].
      destruct (Hr1 l Hl) as (b & Hb & Hrest).
      exists b. split; [|exact Hrest].
      rewrite Hf2 by (apply Hin1, Hl). exact Hb.
Qed.

(** X12: the band records of a result of [analyze_gel] are objects of
    their own: no record occurs twice in the result, none existed before
    the call, and every record that existed before the call is
    unchanged. *)
Theorem analyze_gel_allocates_fresh_bands sg ps std (image : ndarray2)
    (N : option Z) (lane_bounds : option (list (Z * Z)))
    (s : store) (g : gel) (s' : store) :
  analyze_gel sg ps std image N lane_bounds s = Ok (g, s') ->
  distinct_bands g /\
  (forall l, l ∈ band_locs g -> (l ∉ dom s) /\ (l ∈ dom s')) /\
  (forall l, l ∈ dom s -> s' !! l = s !! l).
Proof.
  unfold analyze_gel. intros H.
  destruct (match lane_bounds with
            | Some lb => Ok lb
            | None => detect_lanes sg ps image N "projection"
            end) as [lb|e]; simpl in H; [|discriminate].
  destruct (analyze_lanes sg ps std image lb 0 s) as [[ls s2]|e] eqn:Ea;
    simpl in H; [|discriminate].
  injection H as <- <-.
  destruct (analyze_lanes_alloc _ _ _ _ _ _ _ _ _ Ea) as (Hnd & Hin & _).
  destruct (analyze_lanes_records _ _ _ _ _ _ _ _ _ Ea) as (Hframe & _).
  unfold distinct_bands, band_locs. simpl. repeat split; try assumption.
  - apply Hin; assumption.
  - apply Hin; assumption.
Qed.

Lemma analyze_gel_allocates_fresh_bands_witness :
  exists g s',
    analyze_gel flat_smooth peak_at_50 flat_std (zero_lane 60) None
      (Some [(0, 1)]) sample_store = Ok (g, s') /\
    distinct_bands g /\
    s' !! 0%nat = sample_store !! 0%nat.
Proof.
  destruct (analyze_gel flat_smooth peak_at_50 flat_std (zero_lane 60) None
              (Some [(0, 1)]) sample_store) as [[g s']|e] eqn:E.
  - exists g, s'. split; [reflexivity|].
    destruct (analyze_gel_allocates_fresh_bands _ _ _ _ _ _ _ _ _ E)
      as (Hd & _ & Hframe).
    split; [exact Hd|]. apply Hframe. vm_compute. reflexivity.
  - vm_compute in E. discriminate.
Defined.

(** X13: every band record of a result of [analyze_gel] has no
    [normalized_intensity], has [width] 20 (the width the quantifier
    assumed, which replaces the detector's), and has [volume] equal to
    [total_intensity]. *)
Theorem analyze_gel_band_fields sg ps std (image : ndarray2)
    (N : option Z) (lane_bounds : option (list (Z * Z)))
    (s : store) (g : gel) (s' : store) :
  analyze_gel sg ps std image N lane_bounds s = Ok (g, s') ->
  forall l, l ∈ band_locs g ->
    exists b, s' !! l = Some b /\
      normalized_intensity b = None /\ width b = (20 # 1)%Q /\
      volume b = total_intensity b.
Proof.
  unfold analyze_gel. intros H.
  destruct (match lane_bounds with
            | Some lb => Ok lb
            | None => detect_lanes sg ps image N "projection"
            end) as [lb|e]; simpl in H; [|discriminate].
  destruct (analyze_lanes sg ps std image lb 0 s) as [[ls s2]|e] eqn:Ea;
    simpl in H; [|discriminate].
  injection H as <- <-.
  apply (analyze_lanes_records _ _ _ _ _ _ _ _ _ Ea).
Qed.

Lemma analyze_gel_band_fields_witness :
  exists g s' l b,
    analyze_gel flat_smooth peak_at_50 flat_std (zero_lane 60) None
      (Some [(0, 1)]) ∅ = Ok (g, s') /\
    band_locs g = [l] /\ s' !! l = Some b /\ width b = (20 # 1)%Q.
Proof.
  destruct (analyze_gel flat_smooth peak_at_50 flat_std (zero_lane 60) None
              (Some [(0, 1)]) ∅) as [[g s']|e] eqn:E.
  - assert (Hl : band_locs g = [0%nat]).
    { vm_compute in E. injection E as <- _. reflexivity. }
    destruct (analyze_gel_band_fields _ _ _ _ _ _ _ _ _ E 0%nat)
      as (b & Hb & _ & Hw & _).
    + rewrite Hl. left.
    + exists g, s', 0%nat, b. repeat split; assumption.
  - vm_compute in E. discriminate.
Defined.

(** X14: on an image of fewer than 11 rows, [analyze_gel] with at least
    one lane boundary given raises [ValueError] (from the band
    detector's smoothing of the first lane). *)
Theorem analyze_gel_short_image_raises sg ps std (image : ndarray2)
    (N : option Z) (bnds : Z * Z) (rest : list (Z * Z)) (s : store) :
  (nrows image < 11)%nat ->
  analyze_gel sg ps std image N (Some (bnds :: rest)) s = Raise ValueError.
Proof.
  intros H. unfold analyze_gel. rewrite bind_Ok. cbn [analyze_lanes].
  rewrite detect_bands_short; [reflexivity|].
  destruct bnds as [a b]. unfold nrows, extract_lane in *. simpl.
  now rewrite length_map.
Qed.

Lemma analyze_gel_short_image_raises_witness :
  analyze_gel flat_smooth no_peaks flat_std small_image None
    (Some [(0, 2); (2, 4)]) ∅ = Raise ValueError.
Proof.
  apply analyze_gel_short_image_raises. unfold nrows. simpl. lia.
Defined.

(** ** Lane normaliser: errors, repetition, and what it equalises *)

(** X15: a reference lane index outside [-n, n), for [n] lanes, makes
    [normalize_lanes] raise [IndexError]; the exception is not caught. *)
Theorem normalize_lanes_bad_reference (g : gel) (r : Z) (s : store) :
  ~ in_range (lanes g) r ->
  normalize_lanes g (Some r) "total_intensity" s = Raise IndexError.
Proof.
  intros H. unfold normalize_lanes. simpl String.eqb. cbv iota.
  rewrite index_out_of_range; [reflexivity|].
  unfold in_range in *. now rewrite length_map.
Qed.

Lemma normalize_lanes_bad_reference_witness :
  normalize_lanes sample_gel (Some 2) "total_intensity" sample_store
  = Raise IndexError.
Proof.
  apply normalize_lanes_bad_reference. unfold in_range. simpl. lia.
Defined.

Lemma set_normalized_same_measurements (x y : band) (v : Q) :
  without_normalized x = without_normalized y ->
  set_normalized x v = set_normalized y v.
Proof.
  intros H. unfold set_normalized.
  injection H as -> -> -> -> -> -> -> -> ->. reflexivity.
Qed.

Lemma lane_total_same_measurements (a b : store) (ln : lane) :
  same_measurements a b -> lane_total a ln = lane_total b ln.
Proof.
  intros H. unfold lane_total. generalize 0%Q.
  induction (bands ln) as [|l bs IH]; intros acc; simpl; [reflexivity|].
  rewrite (without_normalized_total _ _ (H l)). apply IH.
Qed.

(** Writing the same factor into two stores with the same measurements
    leaves them with the same measurements, and with the same record at
    every identity written so far. *)
Lemma write_normalized_agree (f : Q) (a b : store) (l : loc) (T : loc -> Prop) :
  same_measurements a b ->
  (forall k, T k -> a !! k = b !! k) ->
  same_measurements (write_normalized f a l) (write_normalized f b l) /\
  (forall k, T k \/ k = l ->
     write_normalized f a l !! k = write_normalized f b l !! k).
Proof.
  intros Hm HT. split.
  - intros k. now rewrite !write_normalized_frame.
  - intros k Hk. unfold write_normalized.
    destruct (Nat.eq_dec l k) as [->|Hne].
    + rewrite !lookup_insert_eq. f_equal.
      rewrite (without_normalized_total _ _ (Hm k)).
      apply set_normalized_same_measurements, Hm.
    + rewrite !lookup_insert_ne by exact Hne.
      destruct Hk as [Hk|Hk]; [apply HT, Hk|congruence].
Qed.

Lemma normalize_lane_agree (f : Q) (bs : list loc) :
  forall (a b : store) (T : loc -> Prop),
  same_measurements a b ->
  (forall k, T k -> a !! k = b !! k) ->
  same_measurements (fold_left (write_normalized f) bs a)
                    (fold_left (write_normalized f) bs b) /\
  (forall k, T k \/ In k bs ->
     fold_left (write_normalized f) bs a !! k
     = fold_left (write_normalized f) bs b !! k).
Proof.
  induction bs as [|l bs IH]; intros a b T Hm HT; simpl.
  - split; [exact Hm|]. intros k [Hk|[]]. apply HT, Hk.
  - destruct (write_normalized_agree f a b l T Hm HT) as [Hm1 HT1].
    destruct (IH _ _ (fun k => T k \/ k = l) Hm1 HT1) as [Hm2 HT2].
    split; [exact Hm2|]. intros k Hk. apply HT2.
    destruct Hk as [Hk|[Hk|Hk]]; auto.
Qed.

Lemma normalize_each_agree (ls : list lane) :
  forall (i : Z) (totals : list Q) (norm : Q) (a b a' : store) (T : loc -> Prop),
  same_measurements a b ->
  (forall k, T k -> a !! k = b !! k) ->
  normalize_each ls i totals norm a = Ok a' ->
  exists b',
    normalize_each ls i totals norm b = Ok b' /\
    forall k, T k \/ In k (concat (map bands ls)) -> a' !! k = b' !! k.
Proof.
  induction ls as [|ln ls IH]; intros i totals norm a b a' T Hm HT H;
    cbn [normalize_each] in *.
  - injection H as <-. exists b. split; [reflexivity|].
    intros k [Hk|[]]. apply HT, Hk.
  - destruct (index totals i) as [t|e]; simpl in *; [|discriminate].
    set (f := if Qle_bool t 0 then 1%Q else (norm / t)%Q) in *.
    destruct (normalize_lane_agree f (bands ln) a b T Hm HT) as [Hm1 HT1].
    destruct (IH _ _ _ _ _ _ (fun k => T k \/ In k (bands ln)) Hm1 HT1 H)
      as (b' & Hb' & Hagree).
    exists b'. split; [exact Hb'|].
    intros k Hk. apply Hagree. rewrite in_app_iff in Hk. tauto.
Qed.

Lemma normalize_lane_untouched (f : Q) (bs : list loc) (s : store) (k : loc) :
  ~ In k bs -> fold_left (write_normalized f) bs s !! k = s !! k.
Proof.
  revert s. induction bs as [|l bs IH]; intros s Hk; simpl; [reflexivity|].
  rewrite IH by (intros Hin; apply Hk; now right). unfold write_normalized.
  apply lookup_insert_ne. intros ->. apply Hk. now left.
Qed.

Lemma normalize_each_untouched (ls : list lane) :
  forall (i : Z) (totals : list Q) (norm : Q) (s s' : store) (k : loc),
  normalize_each ls i totals norm s = Ok s' ->
  ~ In k (concat (map bands ls)) -> s' !! k = s !! k.
Proof.
  induction ls as [|ln ls IH]; intros i totals norm s s' k H Hk;
    cbn [normalize_each] in H.
  - now injection H as <-.
  - destruct (index totals i) as [t|e]; simpl in H; [|discriminate].
    simpl in Hk. rewrite in_app_iff in Hk.
    rewrite (IH _ _ _ _ _ _ H) by tauto.
    apply normalize_lane_untouched. tauto.
Qed.

Lemma normalize_each_same_measurements (ls : list lane) :
  forall (i : Z) (totals : list Q) (norm : Q) (s s' : store),
  normalize_each ls i totals norm s = Ok s' -> same_measurements s' s.
Proof.
  induction ls as [|ln ls IH]; intros i totals norm s s' H;
    cbn [normalize_each] in H.
  - injection H as <-. intros l. reflexivity.
  - destruct (index totals i) as [t|e]; simpl in H; [|discriminate].
    intros l. rewrite (IH _ _ _ _ _ H l).
    apply (normalize_lane_spec _ (bands ln) s).
Qed.

(** X16: normalising is idempotent.  If a call returns, the same call on
    the store it left returns too and leaves that store as it is. *)
Theorem normalize_lanes_idempotent (g : gel) (reference_lane : option Z)
    (s s1 : store) :
  normalize_lanes g reference_lane "total_intensity" s = Ok (g, s1) ->
  normalize_lanes g reference_lane "total_intensity" s1 = Ok (g, s1).
Proof.
  unfold normalize_lanes. simpl String.eqb. cbv iota. intros H.
  destruct (match reference_lane with
            | Some r => index (map (lane_total s) (lanes g)) r
            | None => Ok (np_mean (map (lane_total s) (lanes g)))
            end) as [norm|e] eqn:En; simpl in H; [|discriminate].
  destruct (normalize_each (lanes g) 0 (map (lane_total s) (lanes g)) norm s)
    as [s1'|e] eqn:E1; simpl in H; [|discriminate].
  injection H as ->.
  pose proof (normalize_each_same_measurements _ _ _ _ _ _ E1) as Hm.
  assert (Htot : map (lane_total s1) (lanes g) = map (lane_total s) (lanes g)).
  { apply map_ext. intros ln. apply lane_total_same_measurements, Hm. }
  rewrite Htot, En. simpl.
  destruct (normalize_each_agree (lanes g) 0 (map (lane_total s) (lanes g)) norm
              s s1 s1 (fun _ => False)) as (s2 & E2 & Hagree).
  - intros l. symmetry. apply Hm.
  - intros k [].
  - exact E1.
  - rewrite E2. simpl. do 2 f_equal. apply map_eq. intros k.
    destruct (in_dec Nat.eq_dec k (concat (map bands (lanes g)))) as [Hk|Hk].
    + symmetry. apply Hagree. now right.
    + apply (normalize_each_untouched _ _ _ _ _ _ _ E2 Hk).
Qed.

Lemma normalize_lanes_idempotent_witness :
  exists s1,
    normalize_lanes sample_gel None "total_intensity" sample_store
      = Ok (sample_gel, s1) /\
    normalize_lanes sample_gel None "total_intensity" s1 = Ok (sample_gel, s1).
Proof.
  destruct (normalize_lanes sample_gel None "total_intensity" sample_store)
    as [[g s1]|e] eqn:E.
  - assert (g = sample_gel) as -> by (vm_compute in E; now injection E).
    exists s1. split; [reflexivity|].
    apply (normalize_lanes_idempotent _ _ _ _ E).
  - vm_compute in E. discriminate.
Defined.

Lemma normalize_each_lane_value (pre post : list lane) (ln : lane)
    (totals : list Q) (norm t : Q) (s s' : store) :
  NoDup (concat (map bands (pre ++ ln :: post))) ->
  normalize_each (pre ++ ln :: post) 0 totals norm s = Ok s' ->
  index totals (Z.of_nat (length pre)) = Ok t ->
  forall l, In l (bands ln) ->
    normalized_intensity (s' !!! l)
    = Some (total_intensity (s !!! l)
            * (if Qle_bool t 0 then 1 else norm / t))%Q.
Proof.
  intros Hnd H Ht l Hl. rewrite normalize_each_app in H.
  destruct (normalize_each pre 0 totals norm s) as [s1|e] eqn:E1;
    simpl in H; [|discriminate].
  cbn [normalize_each] in H. rewrite Z.add_0_l, Ht, bind_Ok in H.
  set (f := if Qle_bool t 0 then 1%Q else (norm / t)%Q) in *.
  pose proof (normalize_each_same_measurements _ _ _ _ _ _ E1) as Hm1.
  destruct (normalize_lane_spec f (bands ln) s1) as (_ & _ & Hi2).
  assert (Hlater : ~ In l (concat (map bands post)))
    by (eapply distinct_bands_later_lanes; eassumption).
  assert (Hlook : s' !! l = fold_left (write_normalized f) (bands ln) s1 !! l)
    by (eapply normalize_each_untouched; eassumption).
  rewrite !lookup_total_alt, Hlook, <- !lookup_total_alt.
  rewrite (Hi2 l Hl). do 2 f_equal.
  apply without_normalized_total, Hm1.
Qed.

Lemma fold_scaled {A} (g h : A -> Q) (f : Q) (bs : list A) :
  (forall l, In l bs -> (g l == h l * f)%Q) ->
  forall a b, (a == b * f)%Q ->
  (fold_left (fun acc l => acc + g l) bs a
   == fold_left (fun acc l => acc + h l) bs b * f)%Q.
Proof.
  induction bs as [|l bs IH]; intros H a b Hab; simpl.
  - exact Hab.
  - apply IH.
    + intros l' Hl'. apply H. now right.
    + rewrite Hab, (H l) by (now left). ring.
Qed.

(** X17: what normalising writes, and what it equalises.  For a gel
    result of distinct band records, after [normalize_lanes] every band
    of a lane holds [total_intensity * factor], where the lane's factor
    is the target (the reference lane's total, or the mean of the lane
    totals without a reference) divided by the lane's total, or 1 for a
    lane whose total is not positive.  Hence, in exact arithmetic, the
    normalised intensities of every lane with a positive total add up to
    the target, and a lane whose total is not positive keeps its
    total. *)
Theorem normalize_lanes_equalises_totals (g : gel) (reference_lane : option Z)
    (norm : Q) (s : store) :
  distinct_bands g ->
  normalization_target g s reference_lane norm ->
  exists s',
    normalize_lanes g reference_lane "total_intensity" s = Ok (g, s') /\
    forall ln, In ln (lanes g) ->
      (forall l, In l (bands ln) ->
         normalized_intensity (s' !!! l)
         = Some (total_intensity (s' !!! l)
                 * (if Qle_bool (lane_total s ln) 0 then 1
                    else norm / lane_total s ln))%Q) /\
      ((0 < lane_total s ln)%Q -> (normalized_total s' ln == norm)%Q) /\
      ((lane_total s ln <= 0)%Q -> (normalized_total s' ln == lane_total s ln)%Q).
Proof.
  intros Hnd Htarget. unfold normalize_lanes. simpl String.eqb. cbv iota.
  set (totals := map (lane_total s) (lanes g)).
  assert (Hnorm : match reference_lane with
                  | Some r => index totals r
                  | None => Ok (np_mean totals)
                  end = Ok norm).
  { destruct reference_lane as [r|]; simpl in Htarget.
    - destruct Htarget as (lnr & Hr & ->). apply (index_map (lane_total s)), Hr.
    - now subst norm. }
  rewrite Hnorm, bind_Ok.
  destruct (normalize_each_spec (lanes g) 0 totals norm s) as (s' & Hs' & _);
    [lia|subst totals; rewrite length_map; lia|].
  exists s'. rewrite Hs'. split; [reflexivity|].
  pose proof (normalize_each_same_measurements _ _ _ _ _ _ Hs') as Hsame.
  intros ln Hln.
  apply In_nth_error in Hln as [k Hk].
  destruct (nth_error_split _ _ Hk) as (pre & post & Hsplit & Hlen).
  unfold distinct_bands, band_locs in Hnd. rewrite Hsplit in Hnd, Hs'.
  assert (Ht : index totals (Z.of_nat (length pre)) = Ok (lane_total s ln)).
  { apply index_nonneg. subst totals. rewrite Hsplit.
    rewrite nth_error_map, nth_error_app2, Nat.sub_diag by lia. reflexivity. }
  pose proof (normalize_each_lane_value pre post ln totals norm
                (lane_total s ln) s s' Hnd Hs' Ht) as Hval.
  set (t := lane_total s ln) in *.
  assert (Hsum : (normalized_total s' ln
                  == t * (if Qle_bool t 0 then 1 else norm / t))%Q).
  { unfold normalized_total. subst t. unfold lane_total.
    apply (fold_scaled
             (fun l => default 0%Q (normalized_intensity (s' !!! l)))
             (fun l => total_intensity (s !!! l))).
    - intros l Hl. rewrite (Hval l Hl). reflexivity.
    - ring. }
  split; [|split; intros Hsign; rewrite Hsum].
  - intros l Hl. rewrite (Hval l Hl). do 2 f_equal.
    symmetry. apply without_normalized_total, Hsame.
  - destruct (Qle_bool t 0) eqn:E.
    + apply Qle_bool_iff in E. exfalso. exact (Qlt_not_le _ _ Hsign E).
    + apply Qmult_div_r. intros H0. rewrite H0 in Hsign. discriminate Hsign.
  - apply Qle_bool_iff in Hsign. rewrite Hsign. ring.
Qed.

Lemma normalize_lanes_equalises_totals_witness :
  exists s',
    normalize_lanes sample_gel None "total_intensity" sample_store
      = Ok (sample_gel, s') /\
    (normalized_total s' (sample_lane 1 [0%nat]) == 5 # 2)%Q.
Proof.
  assert (Hnd : distinct_bands sample_gel).
  { unfold distinct_bands, band_locs. simpl. apply NoDup_ListNoDup.
    apply List.NoDup_cons; [intros [H|[]]; discriminate|].
    apply List.NoDup_cons; [intros []|]. apply List.NoDup_nil. }
  destruct (normalize_lanes_equalises_totals sample_gel None
              (np_mean (map (lane_total sample_store) (lanes sample_gel)))
              sample_store Hnd eq_refl) as (s' & Hs' & Hlanes).
  exists s'. split; [exact Hs'|].
  destruct (Hlanes (sample_lane 1 [0%nat])) as (_ & Hpos & _); [now left|].
  rewrite Hpos by (vm_compute; reflexivity). vm_compute. reflexivity.
Defined.

(** ** Band comparator: the metrics it returns *)

(** The metrics of a successful comparison, in terms of the two total
    intensities. *)
Lemma compare_bands_metrics_value (g : gel) (a b k : Z) (s : store) (c : comparison) :
  compare_bands g a b k s = Ok (Compared c) ->
  exists l1 l2,
    select_band g a k = Ok l1 /\ select_band g b k = Ok l2 /\
    let t1 := total_intensity (s !!! l1) in
    let t2 := total_intensity (s !!! l2) in
    ~ (t1 == 0)%Q /\ ~ (t2 == 0)%Q /\
    c = {| lane1_intensity := t1; lane2_intensity := t2;
           ratio := (t1 / t2)%Q;
           fold_change := if Qle_bool 1 (t1 / t2) then (t1 / t2)%Q
                          else (- (1) / (t1 / t2))%Q;
           percent_difference := ((t1 - t2) / t2 * (100 # 1))%Q |}.
Proof.
  unfold compare_bands. rewrite compare_body_select. intros H.
  destruct (select_band g a k) as [l1|e1]; [|destruct e1; discriminate].
  destruct (select_band g b k) as [l2|e2]; [|destruct e2; discriminate].
  rewrite !bind_Ok in H. cbv zeta in H.
  exists l1, l2. split; [reflexivity|]. split; [reflexivity|]. cbv zeta.
  set (t1 := total_intensity (s !!! l1)) in *.
  set (t2 := total_intensity (s !!! l2)) in *.
  destruct (Qeq_dec t2 0) as [Z2|Z2].
  { rewrite (truediv_zero t1 t2 Z2) in H. discriminate. }
  rewrite (truediv_nonzero t1 t2 Z2), bind_Ok in H.
  rewrite (truediv_nonzero (t1 - t2) t2 Z2) in H.
  destruct (Qeq_dec t1 0) as [Z1|Z1].
  { assert (Hr : (t1 / t2 == 0)%Q) by (apply Qdiv_zero_iff; assumption).
    destruct (Qle_bool 1 (t1 / t2)) eqn:E.
    - apply Qle_bool_iff in E. rewrite Hr in E. exfalso. apply E. reflexivity.
    - rewrite (truediv_zero (- (1)) _ Hr) in H. discriminate. }
  split; [exact Z1|]. split; [exact Z2|].
  assert (Hr : ~ (t1 / t2 == 0)%Q) by (rewrite Qdiv_zero_iff; assumption).
  destruct (Qle_bool 1 (t1 / t2)).
  - simpl in H. injection H as <-. reflexivity.
  - rewrite (truediv_nonzero (- (1)) _ Hr) in H. simpl in H.
    injection H as <-. reflexivity.
Qed.

(** X18: the metrics of a successful comparison.  The two intensities
    reported are the total intensities of the two selected bands and
    neither is zero; [fold_change] is [ratio] itself when [ratio >= 1].
    In exact arithmetic, moreover, [ratio * lane2_intensity] is
    [lane1_intensity], [percent_difference] is [(ratio - 1) * 100], and
    [fold_change * ratio] is [-1] when [ratio < 1]. *)
Theorem compare_bands_metrics_relations (g : gel) (a b k : Z) (s : store)
    (c : comparison) :
  compare_bands g a b k s = Ok (Compared c) ->
  (exists l1 l2,
     select_band g a k = Ok l1 /\ select_band g b k = Ok l2 /\
     lane1_intensity c = total_intensity (s !!! l1) /\
     lane2_intensity c = total_intensity (s !!! l2)) /\
  ~ (lane1_intensity c == 0)%Q /\
  ~ (lane2_intensity c == 0)%Q /\
  ((1 <= ratio c)%Q -> fold_change c = ratio c) /\
  (ratio c * lane2_intensity c == lane1_intensity c)%Q /\
  (percent_difference c == (ratio c - 1) * (100 # 1))%Q /\
  ((ratio c < 1)%Q -> (fold_change c * ratio c == - (1))%Q).
Proof.
  intros H.
  destruct (compare_bands_metrics_value _ _ _ _ _ _ H)
    as (l1 & l2 & Hl1 & Hl2 & Z1 & Z2 & ->). simpl.
  set (t1 := total_intensity (s !!! l1)) in *.
  set (t2 := total_intensity (s !!! l2)) in *.
  assert (Hr : ~ (t1 / t2 == 0)%Q) by (rewrite Qdiv_zero_iff; assumption).
  split; [exists l1, l2; repeat split; assumption|].
  split; [exact Z1|]. split; [exact Z2|]. split; [|split; [|split]].
  - intros Hle. apply Qle_bool_iff in Hle. now rewrite Hle.
  - rewrite Qmult_comm. apply Qmult_div_r, Z2.
  - field. exact Z2.
  - intros Hlt. destruct (Qle_bool 1 (t1 / t2)) eqn:E.
    + apply Qle_bool_iff in E. exfalso. exact (Qlt_not_le _ _ Hlt E).
    + rewrite Qmult_comm. apply Qmult_div_r, Hr.
Qed.

Lemma compare_bands_metrics_relations_witness :
  exists c,
    compare_bands sample_gel 0 0 0 sample_store = Ok (Compared c) /\
    ~ (lane2_intensity c == 0)%Q.
Proof.
  eexists. split; [reflexivity|].
  apply (compare_bands_metrics_relations sample_gel 0 0 0 sample_store).
  reflexivity.
Defined.

Lemma Qdiv_ge_1 (t1 t2 : Q) : (0 < t2)%Q -> ((1 <= t1 / t2)%Q <-> (t2 <= t1)%Q).
Proof.
  intros H2.
  assert (Hne : ~ (t2 == 0)%Q) by (intros H0; rewrite H0 in H2; discriminate H2).
  assert (E : (t1 / t2 * t2 == t1)%Q) by (field; exact Hne).
  split; intros H.
  - apply (Qmult_le_r _ _ t2 H2) in H. rewrite E, Qmult_1_l in H. exact H.
  - apply Qle_shift_div_l; [exact H2|]. now rewrite Qmult_1_l.
Qed.

(** X19: for two bands of positive total intensity, [fold_change] is at
    least 1 when lane 1's band is at least as intense as lane 2's, and
    below -1 when it is less intense; it is never in [-1, 1). *)
Theorem compare_bands_fold_change_range (g : gel) (a b k : Z) (s : store)
    (c : comparison) :
  compare_bands g a b k s = Ok (Compared c) ->
  (0 < lane1_intensity c)%Q ->
  (0 < lane2_intensity c)%Q ->
  ((lane2_intensity c <= lane1_intensity c)%Q -> (1 <= fold_change c)%Q) /\
  ((lane1_intensity c < lane2_intensity c)%Q -> (fold_change c < - (1))%Q).
Proof.
  intros H.
  destruct (compare_bands_metrics_value _ _ _ _ _ _ H)
    as (l1 & l2 & _ & _ & Z1 & Z2 & ->). simpl.
  set (t1 := total_intensity (s !!! l1)) in *.
  set (t2 := total_intensity (s !!! l2)) in *.
  intros P1 P2. split.
  - intros Hle. apply (Qdiv_ge_1 t1 t2 P2) in Hle.
    assert (E : Qle_bool 1 (t1 / t2) = true) by (apply Qle_bool_iff, Hle).
    rewrite E. exact Hle.
  - intros Hlt.
    destruct (Qle_bool 1 (t1 / t2)) eqn:E.
    + apply Qle_bool_iff, (Qdiv_ge_1 t1 t2 P2) in E.
      exfalso. exact (Qlt_not_le _ _ Hlt E).
    + assert (Heq : (- (1) / (t1 / t2) == - (t2 / t1))%Q) by (field; split; assumption).
      rewrite Heq.
      assert (Hgt : (1 < t2 / t1)%Q).
      { apply Qlt_shift_div_l; [exact P1|]. now rewrite Qmult_1_l. }
      lra.
Qed.

Lemma compare_bands_fold_change_range_witness :
  exists c,
    compare_bands sample_gel 0 0 0 sample_store = Ok (Compared c) /\
    (1 <= fold_change c)%Q.
Proof.
  eexists. split; [reflexivity|].
  apply (compare_bands_fold_change_range sample_gel 0 0 0 sample_store);
    vm_compute; (reflexivity || discriminate).
Defined.

(** X20: swapping the two lanes of a successful comparison gives a
    successful comparison with the two intensities exchanged.  For
    positive, different intensities the two fold changes point in
    opposite directions: one is at least 1 and the other is below -1.
    In exact arithmetic, moreover, the two ratios are reciprocal and the
    fold change of the swapped call is the negative of the original
    one. *)
Theorem compare_bands_swap (g : gel) (a b k : Z) (s : store) (c : comparison) :
  compare_bands g a b k s = Ok (Compared c) ->
  exists c',
    compare_bands g b a k s = Ok (Compared c') /\
    lane1_intensity c' = lane2_intensity c /\
    lane2_intensity c' = lane1_intensity c /\
    ((0 < lane1_intensity c)%Q -> (0 < lane2_intensity c)%Q ->
     ~ (lane1_intensity c == lane2_intensity c)%Q ->
     ((1 <= fold_change c)%Q /\ (fold_change c' < - (1))%Q \/
      (fold_change c < - (1))%Q /\ (1 <= fold_change c')%Q) /\
     (fold_change c' == - fold_change c)%Q) /\
    (ratio c * ratio c' == 1)%Q.
Proof.
  intros H.
  destruct (compare_bands_metrics_value _ _ _ _ _ _ H)
    as (l1 & l2 & Hl1 & Hl2 & Z1 & Z2 & ->).
  set (t1 := total_intensity (s !!! l1)) in *.
  set (t2 := total_intensity (s !!! l2)) in *.
  assert (Hex : exists c', compare_bands g b a k s = Ok (Compared c')).
  { unfold compare_bands. rewrite compare_body_select, Hl2, bind_Ok, Hl1, bind_Ok.
    cbv zeta. fold t1 t2.
    destruct (compare_arith t2 t1) as [_ Hok].
    destruct Hok as [c' Hc']; [tauto|]. rewrite Hc'. eauto. }
  destruct Hex as [c' Hc']. exists c'. split; [exact Hc'|].
  destruct (compare_bands_metrics_value _ _ _ _ _ _ Hc')
    as (l2' & l1' & Hl2' & Hl1' & _ & _ & ->).
  rewrite Hl2 in Hl2'. rewrite Hl1 in Hl1'.
  injection Hl2' as <-. injection Hl1' as <-. fold t1 t2. simpl.
  split; [reflexivity|]. split; [reflexivity|]. split.
  - intros P1 P2 Hne.
    destruct (Qlt_le_dec t1 t2) as [Hlt|Hge].
    + assert (E1 : Qle_bool 1 (t1 / t2) = false).
      { destruct (Qle_bool 1 (t1 / t2)) eqn:E; [|reflexivity].
        apply Qle_bool_iff, (Qdiv_ge_1 t1 t2 P2) in E.
        exfalso. exact (Qlt_not_le _ _ Hlt E). }
      assert (E2 : Qle_bool 1 (t2 / t1) = true).
      { apply Qle_bool_iff, (Qdiv_ge_1 t2 t1 P1), Qlt_le_weak, Hlt. }
      rewrite E1, E2.
      assert (Hneg : (- (1) / (t1 / t2) == - (t2 / t1))%Q)
        by (field; split; assumption).
      assert (Hgt : (1 < t2 / t1)%Q).
      { apply Qlt_shift_div_l; [exact P1|]. now rewrite Qmult_1_l. }
      split.
      * right. split; [rewrite Hneg; lra|apply Qlt_le_weak, Hgt].
      * rewrite Hneg. ring.
    + assert (Hgt : (t2 < t1)%Q).
      { destruct (Qle_lt_or_eq _ _ Hge) as [Hx|Hx]; [exact Hx|].
        exfalso. apply Hne. symmetry. exact Hx. }
      assert (E1 : Qle_bool 1 (t1 / t2) = true).
      { apply Qle_bool_iff, (Qdiv_ge_1 t1 t2 P2), Hge. }
      assert (E2 : Qle_bool 1 (t2 / t1) = false).
      { destruct (Qle_bool 1 (t2 / t1)) eqn:E; [|reflexivity].
        apply Qle_bool_iff, (Qdiv_ge_1 t2 t1 P1) in E.
        exfalso. exact (Qlt_not_le _ _ Hgt E). }
      rewrite E1, E2.
      assert (Hneg : (- (1) / (t2 / t1) == - (t1 / t2))%Q)
        by (field; split; assumption).
      assert (Hgt1 : (1 < t1 / t2)%Q).
      { apply Qlt_shift_div_l; [exact P2|]. now rewrite Qmult_1_l. }
      split.
      * left. split; [apply Qlt_le_weak, Hgt1|rewrite Hneg; lra].
      * exact Hneg.
  - field. split; assumption.
Qed.

Lemma compare_bands_swap_witness :
  exists c c',
    compare_bands sample_gel 0 1 0 pair_store = Ok (Compared c) /\
    compare_bands sample_gel 1 0 0 pair_store = Ok (Compared c') /\
    (1 <= fold_change c)%Q /\ (fold_change c' < - (1))%Q.
Proof.
  assert (E : exists c,
             compare_bands sample_gel 0 1 0 pair_store = Ok (Compared c) /\
             (0 < lane1_intensity c)%Q /\ (0 < lane2_intensity c)%Q /\
             ~ (lane1_intensity c == lane2_intensity c)%Q /\
             ~ (fold_change c < - (1))%Q).
  { eexists. split; [vm_compute; reflexivity|].
    repeat split; vm_compute; congruence. }
  destruct E as (c & E & P1 & P2 & Hne & Hnot).
  destruct (compare_bands_swap sample_gel 0 1 0 pair_store c E)
    as (c' & Hc' & _ & _ & Hdir & _).
  exists c, c'. split; [exact E|]. split; [exact Hc'|].
  destruct (Hdir P1 P2 Hne) as [[[Hup Hdown]|[Hdown _]] _].
  - split; assumption.
  - contradiction.
Defined.

Lemma index_negative {A} (l : list A) (i : Z) :
  - Z.of_nat (length l) <= i < 0 ->
  index l i = index l (i + Z.of_nat (length l)).
Proof.
  intros H.
  assert (E1 : (i <? 0) = true) by (apply Z.ltb_lt; lia).
  assert (E2 : (i + Z.of_nat (length l) <? 0) = false) by (apply Z.ltb_ge; lia).
  unfold index. cbv zeta. rewrite E1. cbv iota. rewrite !E2. reflexivity.
Qed.

(** X21: lane and band indices may be negative, counting from the end:
    for [n] lanes and [-n <= a < 0], lane index [a] stands for lane
    [a + n], on either side of the comparison, and likewise for the band
    index within a lane of [m] bands. *)
Theorem compare_bands_negative_indices (g : gel) (a b k : Z) (s : store) :
  - Z.of_nat (length (lanes g)) <= a < 0 ->
  compare_bands g a b k s = compare_bands g (a + Z.of_nat (length (lanes g))) b k s /\
  compare_bands g b a k s = compare_bands g b (a + Z.of_nat (length (lanes g))) k s /\
  forall ln, index (lanes g) b = Ok ln ->
    - Z.of_nat (length (bands ln)) <= k < 0 ->
    select_band g b k = select_band g b (k + Z.of_nat (length (bands ln))).
Proof.
  intros Ha. unfold compare_bands, compare_body.
  rewrite <- (index_negative (lanes g) a Ha).
  split; [reflexivity|]. split; [reflexivity|].
  intros ln Hln Hk. unfold select_band. rewrite Hln, !bind_Ok.
  apply index_negative, Hk.
Qed.

Lemma compare_bands_negative_indices_witness :
  compare_bands sample_gel (-1) 0 0 pair_store
  = compare_bands sample_gel 1 0 0 pair_store.
Proof.
  apply (compare_bands_negative_indices sample_gel (-1) 0 0 pair_store).
  simpl. lia.
Defined.

(** ** Molecular-weight calibrator: outside and inside the marker range *)

Lemma combine_snoc {A B} (l : list A) (l' : list B) (a : A) (b : B) :
  length l = length l' ->
  combine (l ++ [a]) (l' ++ [b]) = combine l l' ++ [(a, b)].
Proof.
  revert l'. induction l as [|x l IH]; intros [|y l'] H; simpl in *;
    try discriminate; [reflexivity|].
  f_equal. apply IH. lia.
Qed.

Lemma StronglySorted_snoc_below (l : list Q) (z : Q) :
  StronglySorted Qlt (l ++ [z]) -> Forall (fun y => (y < z)%Q) l.
Proof.
  induction l as [|y l IH]; simpl; intros H; [constructor|].
  apply StronglySorted_inv in H as [Hs Hall].
  constructor; [|apply IH, Hs].
  rewrite List.Forall_forall in Hall. apply Hall, in_or_app. right. now left.
Qed.

Lemma Q2R_pos (w : Q) : (0 < w)%Q -> (0 < Q2R w)%R.
Proof.
  intros H. replace 0%R with (Q2R 0) by (unfold Q2R; simpl; lra).
  apply Qlt_Rlt, H.
Qed.

(** X22: for a ladder of at least two markers at ascending positions,
    with positive end weights, a band before the first marker position
    gets the first marker's weight and a band at or beyond the last
    marker position gets the last marker's weight: outside the marker
    range the estimate is held at the end markers. *)
Theorem calculate_molecular_weight_outside_range
    (x0 xn w0 wn : Q) (mid wmid : list Q) (x : Q) :
  length mid = length wmid ->
  ascending (x0 :: mid ++ [xn]) ->
  (0 < w0)%Q -> (0 < wn)%Q ->
  ((x < x0)%Q ->
   calculate_molecular_weight x (x0 :: mid ++ [xn]) (w0 :: wmid ++ [wn])
   = Ok (Q2R w0)) /\
  ((xn <= x)%Q ->
   calculate_molecular_weight x (x0 :: mid ++ [xn]) (w0 :: wmid ++ [wn])
   = Ok (Q2R wn)).
Proof.
  intros Hlen Hasc P0 Pn.
  apply (Sorted_StronglySorted Qlt_trans) in Hasc.
  unfold calculate_molecular_weight, interp.
  assert (Hl : (length (x0 :: mid ++ [xn])
                =? length (map (fun w => log10 (Q2R w)) (w0 :: wmid ++ [wn])))%nat
               = true).
  { apply Nat.eqb_eq. rewrite length_map. simpl. rewrite !length_app, Hlen.
    reflexivity. }
  rewrite Hl. simpl negb. cbv iota.
  simpl map. rewrite map_app. simpl map. simpl combine.
  rewrite combine_snoc by (now rewrite length_map).
  split; intros Hx.
  - rewrite (Qle_bool_false_of_lt _ _ Hx). simpl.
    f_equal. apply pow10_log10, Q2R_pos, P0.
  - apply StronglySorted_inv in Hasc as [Hs Hall].
    assert (H0n : (x0 < xn)%Q).
    { rewrite List.Forall_forall in Hall. apply Hall, in_or_app. right. now left. }
    assert (H0 : Qle_bool x0 x = true).
    { apply Qle_bool_iff. eapply Qle_trans; [apply Qlt_le_weak, H0n|exact Hx]. }
    rewrite H0. simpl.
    rewrite interp_from_beyond_last.
    + f_equal. apply pow10_log10, Q2R_pos, Pn.
    + apply Forall_app. split.
      * pose proof (StronglySorted_snoc_below _ _ Hs) as Hbelow.
        apply List.Forall_forall. intros [px py] Hp. simpl.
        apply in_combine_l in Hp. rewrite List.Forall_forall in Hbelow.
        apply Qle_bool_iff. eapply Qle_trans; [apply Qlt_le_weak, Hbelow, Hp|exact Hx].
      * constructor; [|constructor]. simpl. apply Qle_bool_iff, Hx.
Qed.

Lemma calculate_molecular_weight_outside_range_witness :
  calculate_molecular_weight (5 # 1) [10 # 1; 20 # 1; 30 # 1]%Q
    [100 # 1; 50 # 1; 10 # 1]%Q = Ok (Q2R (100 # 1)) /\
  calculate_molecular_weight (40 # 1) [10 # 1; 20 # 1; 30 # 1]%Q
    [100 # 1; 50 # 1; 10 # 1]%Q = Ok (Q2R (10 # 1)).
Proof.
  destruct (calculate_molecular_weight_outside_range
              (10 # 1) (30 # 1) (100 # 1) (10 # 1) [20 # 1]%Q [50 # 1]%Q (5 # 1))
    as [Hbefore _]; [reflexivity|repeat constructor|reflexivity|reflexivity|].
  destruct (calculate_molecular_weight_outside_range
              (10 # 1) (30 # 1) (100 # 1) (10 # 1) [20 # 1]%Q [50 # 1]%Q (40 # 1))
    as [_ Hbeyond]; [reflexivity|repeat constructor|reflexivity|reflexivity|].
  split; [apply Hbefore; reflexivity|apply Hbeyond; discriminate].
Defined.

Lemma pow10_le (a b : R) : (a <= b)%R -> (pow10 a <= pow10 b)%R.
Proof. intros H. unfold pow10. apply Rle_Rpower; [lra|exact H]. Qed.

(** Between two neighbouring sample points [np.interp] is on the chord. *)
Lemma interp_from_between (xs : list Q) :
  forall (fp : list R) (i : nat) (xp : Q) (yp : R) (xi xi1 : Q) (yi yi1 : R) (x : Q),
  StronglySorted Qlt (xp :: xs) ->
  nth_error xs i = Some xi -> nth_error xs (S i) = Some xi1 ->
  nth_error fp i = Some yi -> nth_error fp (S i) = Some yi1 ->
  (xi <= x)%Q -> (x < xi1)%Q ->
  interp_from x xp yp (combine xs fp)
  = if Qeq_bool xi x then yi
    else ((yi1 - yi) / (Q2R xi1 - Q2R xi) * (Q2R x - Q2R xi) + yi)%R.
Proof.
  induction xs as [|x1 xs IH]; intros fp i xp yp xi xi1 yi yi1 x Hs Hi Hi1 Hy Hy1 Hle Hlt.
  - destruct i; discriminate.
  - destruct fp as [|y1 fp]; [destruct i; discriminate|].
    apply StronglySorted_inv in Hs as [Hs _].
    pose proof (StronglySorted_inv Hs) as [_ Hall].
    destruct i as [|i]; simpl in Hi, Hi1, Hy, Hy1.
    + injection Hi as <-. injection Hy as <-. simpl.
      rewrite (proj2 (Qle_bool_iff _ _) Hle).
      destruct xs as [|x2 xs]; [discriminate|].
      destruct fp as [|y2 fp]; [discriminate|].
      simpl in Hi1, Hy1. injection Hi1 as <-. injection Hy1 as <-. simpl.
      rewrite (Qle_bool_false_of_lt _ _ Hlt). reflexivity.
    + simpl.
      assert (Hx1 : (x1 < xi)%Q).
      { rewrite List.Forall_forall in Hall. eapply Hall, nth_error_In, Hi. }
      assert (E : Qle_bool x1 x = true).
      { apply Qle_bool_iff. eapply Qle_trans; [apply Qlt_le_weak, Hx1|exact Hle]. }
      rewrite E. eapply IH; eassumption.
Qed.

Lemma chord_between (y0 y1 X0 X1 X : R) :
  (X0 <= X < X1)%R ->
  (Rmin y0 y1 <= (y1 - y0) / (X1 - X0) * (X - X0) + y0 <= Rmax y0 y1)%R.
Proof.
  intros [H0 H1].
  set (lam := ((X - X0) / (X1 - X0))%R).
  assert (Hlam : (0 <= lam <= 1)%R).
  { unfold lam. split.
    - apply Rmult_le_pos; [lra|]. left. apply Rinv_0_lt_compat. lra.
    - apply (Rmult_le_reg_r (X1 - X0)); [lra|].
      unfold Rdiv. rewrite Rmult_assoc, Rinv_l by lra. lra. }
  replace ((y1 - y0) / (X1 - X0) * (X - X0) + y0)%R
    with (y0 + (y1 - y0) * lam)%R by (unfold lam; field; lra).
  unfold Rmin, Rmax. destruct (Rle_dec y0 y1); split; nra.
Qed.

(** X23: for a ladder at ascending positions and a band between two
    neighbouring markers, [xi <= x < xi1], the estimated weight lies
    between the weights of these two markers. *)
Theorem calculate_molecular_weight_between_markers
    (marker_positions marker_weights : list Q) (i : nat)
    (xi xi1 wi wi1 x : Q) :
  length marker_positions = length marker_weights ->
  ascending marker_positions ->
  nth_error marker_positions i = Some xi ->
  nth_error marker_positions (S i) = Some xi1 ->
  nth_error marker_weights i = Some wi ->
  nth_error marker_weights (S i) = Some wi1 ->
  (0 < wi)%Q -> (0 < wi1)%Q ->
  (xi <= x)%Q -> (x < xi1)%Q ->
  exists r,
    calculate_molecular_weight x marker_positions marker_weights = Ok r /\
    (Rmin (Q2R wi) (Q2R wi1) <= r <= Rmax (Q2R wi) (Q2R wi1))%R.
Proof.
  intros Hlen Hasc Hi Hi1 Hw Hw1 Pi Pi1 Hle Hlt.
  apply (Sorted_StronglySorted Qlt_trans) in Hasc.
  set (fp := map (fun w => log10 (Q2R w)) marker_weights).
  assert (Hy : nth_error fp i = Some (log10 (Q2R wi)))
    by (subst fp; rewrite nth_error_map, Hw; reflexivity).
  assert (Hy1 : nth_error fp (S i) = Some (log10 (Q2R wi1)))
    by (subst fp; rewrite nth_error_map, Hw1; reflexivity).
  assert (Hinterp : interp x marker_positions fp
            = Ok (if Qeq_bool xi x then log10 (Q2R wi)
                  else ((log10 (Q2R wi1) - log10 (Q2R wi))
                        / (Q2R xi1 - Q2R xi) * (Q2R x - Q2R xi)
                        + log10 (Q2R wi))%R)).
  { unfold interp.
    assert (Hl : (length marker_positions =? length fp)%nat = true)
      by (apply Nat.eqb_eq; subst fp; now rewrite length_map).
    rewrite Hl. simpl negb. cbv iota.
    destruct marker_positions as [|x0 xs]; [destruct i; discriminate|].
    destruct fp as [|y0 fp']; [discriminate|]. simpl combine. cbv iota beta.
    destruct i as [|i]; simpl in Hi, Hi1, Hy, Hy1.
    - injection Hi as <-. injection Hy as <-.
      rewrite (proj2 (Qle_bool_iff _ _) Hle). f_equal.
      destruct xs as [|x2 xs]; [discriminate|].
      destruct fp' as [|y2 fp']; [discriminate|].
      simpl in Hi1, Hy1. injection Hi1 as <-. injection Hy1 as <-. simpl.
      rewrite (Qle_bool_false_of_lt _ _ Hlt). reflexivity.
    - pose proof (StronglySorted_inv Hasc) as [_ Hall].
      assert (Hx0 : (x0 < xi)%Q).
      { rewrite List.Forall_forall in Hall. eapply Hall, nth_error_In, Hi. }
      assert (E : Qle_bool x0 x = true).
      { apply Qle_bool_iff. eapply Qle_trans; [apply Qlt_le_weak, Hx0|exact Hle]. }
      rewrite E. f_equal. eapply interp_from_between; eassumption. }
  unfold calculate_molecular_weight. fold fp. rewrite Hinterp, bind_Ok.
  eexists. split; [reflexivity|].
  pose proof (Q2R_pos _ Pi) as Ri. pose proof (Q2R_pos _ Pi1) as Ri1.
  destruct (Qeq_bool xi x).
  - rewrite pow10_log10 by exact Ri.
    split; [apply Rmin_l|apply Rmax_l].
  - destruct (chord_between (log10 (Q2R wi)) (log10 (Q2R wi1))
                (Q2R xi) (Q2R xi1) (Q2R x)) as [Hlo Hhi].
    { split; [apply Qle_Rle, Hle|apply Qlt_Rlt, Hlt]. }
    apply pow10_le in Hlo. apply pow10_le in Hhi.
    unfold Rmin, Rmax in *.
    destruct (Rle_dec (log10 (Q2R wi)) (log10 (Q2R wi1)));
      destruct (Rle_dec (Q2R wi) (Q2R wi1));
      rewrite ?pow10_log10 in Hlo, Hhi by assumption; lra.
Qed.

Lemma calculate_molecular_weight_between_markers_witness :
  exists r,
    calculate_molecular_weight (15 # 1) [10 # 1; 20 # 1]%Q [100 # 1; 10 # 1]%Q
      = Ok r /\
    (Rmin (Q2R (100 # 1)) (Q2R (10 # 1)) <= r <= Rmax (Q2R (100 # 1)) (Q2R (10 # 1)))%R.
Proof.
  apply (calculate_molecular_weight_between_markers
           [10 # 1; 20 # 1]%Q [100 # 1; 10 # 1]%Q 0
           (10 # 1) (20 # 1) (100 # 1) (10 # 1) (15 # 1));
    try reflexivity.
  - repeat constructor.
  - discriminate.
Defined.
